(** * Scalar upwind convection residual (SU2_CFD/include/numerics/scalar/scalar_convection.hpp)

    A shallow embedding of the class template [CUpwScalar]: its constructor
    and its [ComputeResidual] method, with the two pure virtual methods
    [ExtraADPreaccIn] and [FinishResidualCalc] supplied by a type class.

    Numbers: [su2double] is read in exact arithmetic as a rational ([Q]);
    [fabs] is [Qabs], the literal [0.5] is [1 # 2], and equalities between
    computed values are stated with [==] ([Qeq]).  What exact arithmetic
    cannot show (overflow, infinities, NaN) is read off a second embedding
    of lines 123-140 over binary64, in the module [Binary64].  [unsigned short] sizes and
    loop counters are [nat]: the only arithmetic on them is the loop
    increment [iDim++] below the bound [nDim], which cannot wrap.

    Memory: the arrays handed to the class are raw pointers.  They are
    modelled as lists; reading or writing outside the list is undefined
    behaviour in the source and is a failed run ([None]) here. *)

From Stdlib Require Import List Arith Bool Lia.
From Stdlib Require Import ZArith QArith Qabs Qminmax Lqa.
From Stdlib Require PrimFloat.
Import ListNotations.

Local Open Scope Q_scope.

(** ** The differentiation tape *)

(** The arrays that the class and its derived classes hand to the tape. *)
Inductive array_id : Type :=
  | Arr_Normal
  | Arr_ScalarVar_i
  | Arr_ScalarVar_j
  | Arr_GridVel_i
  | Arr_GridVel_j
  | Arr_V_i
  | Arr_V_j
  | Arr_Flux.

(** Modelled from the spec: the namespace [AD] is not part of this header.
    The tape collaborator "exposes open-scope, register-input,
    register-output, close-scope operations"; each call is recorded as one
    event, with the array it names and the number of entries registered. *)
Inductive ad_event : Type :=
  | StartPreacc
  | SetPreaccIn (a : array_id) (n : nat)
  | SetPreaccOut (a : array_id) (n : nat)
  | EndPreacc.

Definition array_id_eqb (a b : array_id) : bool :=
  match a, b with
  | Arr_Normal, Arr_Normal
  | Arr_ScalarVar_i, Arr_ScalarVar_i
  | Arr_ScalarVar_j, Arr_ScalarVar_j
  | Arr_GridVel_i, Arr_GridVel_i
  | Arr_GridVel_j, Arr_GridVel_j
  | Arr_V_i, Arr_V_i
  | Arr_V_j, Arr_V_j
  | Arr_Flux, Arr_Flux => true
  | _, _ => false
  end.

(** An event that registers one of the two grid-velocity arrays as input. *)
Definition registers_GridVel (e : ad_event) : bool :=
  match e with
  | SetPreaccIn a _ => array_id_eqb a Arr_GridVel_i || array_id_eqb a Arr_GridVel_j
  | _ => false
  end.

(** ** Configuration *)

(** The enumerations live in the option-structure header; only the values
    the constructor compares against are distinguished. *)
Inductive TimeIntScheme : Type := EULER_IMPLICIT | EULER_EXPLICIT | RUNGE_KUTTA_EXPLICIT.
Inductive ENUM_REGIME : Type := COMPRESSIBLE | INCOMPRESSIBLE | NO_FLOW.

Record CConfig : Type := mkConfig {
  GetKind_TimeIntScheme_Turb : TimeIntScheme;
  GetKind_Regime : ENUM_REGIME;
  GetDynamic_Grid : bool
}.

Definition TimeIntScheme_eqb (a b : TimeIntScheme) : bool :=
  match a, b with
  | EULER_IMPLICIT, EULER_IMPLICIT
  | EULER_EXPLICIT, EULER_EXPLICIT
  | RUNGE_KUTTA_EXPLICIT, RUNGE_KUTTA_EXPLICIT => true
  | _, _ => false
  end.

Definition ENUM_REGIME_eqb (a b : ENUM_REGIME) : bool :=
  match a, b with
  | COMPRESSIBLE, COMPRESSIBLE
  | INCOMPRESSIBLE, INCOMPRESSIBLE
  | NO_FLOW, NO_FLOW => true
  | _, _ => false
  end.

(** ** The object *)

(** One [su2double] object in a buffer obtained from [new su2double[n]]:
    [None] while its value is indeterminate, [Some x] once it holds [x]. *)
Definition slot : Type := option Q.

(** The fields of [CUpwScalar], together with the fields of the base class
    [CNumerics] that [ComputeResidual] reads or writes. *)
Record CUpwScalar : Type := mkUpw {
  (* CNumerics *)
  nDim : nat;
  nVar : nat;
  Normal : list Q;
  V_i : list Q;
  V_j : list Q;
  ScalarVar_i : list Q;
  ScalarVar_j : list Q;
  GridVel_i : list Q;
  GridVel_j : list Q;
  Density_i : slot;
  Density_j : slot;
  (* CUpwScalar *)
  a0 : Q;
  a1 : Q;
  Flux : list slot;
  Jacobian_i : list (list slot);
  Jacobian_j : list (list slot);
  implicit : bool;
  incompressible : bool;
  dynamic_grid : bool
}.

Definition set_Density_i (x : Q) (s : CUpwScalar) : CUpwScalar :=
  mkUpw (nDim s) (nVar s) (Normal s) (V_i s) (V_j s) (ScalarVar_i s) (ScalarVar_j s)
        (GridVel_i s) (GridVel_j s) (Some x) (Density_j s)
        (a0 s) (a1 s) (Flux s) (Jacobian_i s) (Jacobian_j s)
        (implicit s) (incompressible s) (dynamic_grid s).

Definition set_Density_j (x : Q) (s : CUpwScalar) : CUpwScalar :=
  mkUpw (nDim s) (nVar s) (Normal s) (V_i s) (V_j s) (ScalarVar_i s) (ScalarVar_j s)
        (GridVel_i s) (GridVel_j s) (Density_i s) (Some x)
        (a0 s) (a1 s) (Flux s) (Jacobian_i s) (Jacobian_j s)
        (implicit s) (incompressible s) (dynamic_grid s).

Definition set_a0 (x : Q) (s : CUpwScalar) : CUpwScalar :=
  mkUpw (nDim s) (nVar s) (Normal s) (V_i s) (V_j s) (ScalarVar_i s) (ScalarVar_j s)
        (GridVel_i s) (GridVel_j s) (Density_i s) (Density_j s)
        x (a1 s) (Flux s) (Jacobian_i s) (Jacobian_j s)
        (implicit s) (incompressible s) (dynamic_grid s).

Definition set_a1 (x : Q) (s : CUpwScalar) : CUpwScalar :=
  mkUpw (nDim s) (nVar s) (Normal s) (V_i s) (V_j s) (ScalarVar_i s) (ScalarVar_j s)
        (GridVel_i s) (GridVel_j s) (Density_i s) (Density_j s)
        (a0 s) x (Flux s) (Jacobian_i s) (Jacobian_j s)
        (implicit s) (incompressible s) (dynamic_grid s).

Definition set_Flux (f : list slot) (s : CUpwScalar) : CUpwScalar :=
  mkUpw (nDim s) (nVar s) (Normal s) (V_i s) (V_j s) (ScalarVar_i s) (ScalarVar_j s)
        (GridVel_i s) (GridVel_j s) (Density_i s) (Density_j s)
        (a0 s) (a1 s) f (Jacobian_i s) (Jacobian_j s)
        (implicit s) (incompressible s) (dynamic_grid s).

Definition set_Jacobian_i (m : list (list slot)) (s : CUpwScalar) : CUpwScalar :=
  mkUpw (nDim s) (nVar s) (Normal s) (V_i s) (V_j s) (ScalarVar_i s) (ScalarVar_j s)
        (GridVel_i s) (GridVel_j s) (Density_i s) (Density_j s)
        (a0 s) (a1 s) (Flux s) m (Jacobian_j s)
        (implicit s) (incompressible s) (dynamic_grid s).

Definition set_Jacobian_j (m : list (list slot)) (s : CUpwScalar) : CUpwScalar :=
  mkUpw (nDim s) (nVar s) (Normal s) (V_i s) (V_j s) (ScalarVar_i s) (ScalarVar_j s)
        (GridVel_i s) (GridVel_j s) (Density_i s) (Density_j s)
        (a0 s) (a1 s) (Flux s) (Jacobian_i s) m
        (implicit s) (incompressible s) (dynamic_grid s).

(** The caller's [SetGridVel]: both grid-velocity pointers are replaced. *)
Definition SetGridVel (gi gj : list Q) (s : CUpwScalar) : CUpwScalar :=
  mkUpw (nDim s) (nVar s) (Normal s) (V_i s) (V_j s) (ScalarVar_i s) (ScalarVar_j s)
        gi gj (Density_i s) (Density_j s)
        (a0 s) (a1 s) (Flux s) (Jacobian_i s) (Jacobian_j s)
        (implicit s) (incompressible s) (dynamic_grid s).

(** ** Method bodies: state, tape output and undefined behaviour *)

(** A method body maps the object to a result, the updated object and the
    events it appended to the tape, or to [None] when it runs into undefined
    behaviour. *)
Definition M (A : Type) : Type := CUpwScalar -> option (A * CUpwScalar * list ad_event).

Definition ret {A} (x : A) : M A := fun s => Some (x, s, []).

Definition bind {A B} (m : M A) (k : A -> M B) : M B :=
  fun s =>
    match m s with
    | None => None
    | Some (x, s1, l1) =>
        match k x s1 with
        | None => None
        | Some (y, s2, l2) => Some (y, s2, l1 ++ l2)
        end
    end.

Declare Scope upw_scope.
Delimit Scope upw_scope with upw.
Notation "x <- m ;; k" := (bind m (fun x => k))
  (at level 61, m at next level, right associativity) : upw_scope.
Notation "m ;; k" := (bind m (fun _ => k))
  (at level 61, right associativity) : upw_scope.
Local Open Scope upw_scope.

Definition gets {A} (f : CUpwScalar -> A) : M A := fun s => Some (f s, s, []).
Definition modify (f : CUpwScalar -> CUpwScalar) : M unit := fun s => Some (tt, f s, []).
Definition emit (e : ad_event) : M unit := fun s => Some (tt, s, [e]).
Definition lift {A} (o : option A) : M A :=
  fun s => match o with Some x => Some (x, s, []) | None => None end.

(** [p[k]] for a pointer [p] to the first entry of the array [l]. *)
Definition load (l : list Q) (k : nat) : M Q := lift (nth_error l k).

(** [field[k]] for a pointer member [field] of the object. *)
Definition read (field : CUpwScalar -> list Q) (k : nat) : M Q :=
  l <- gets field ;; load l k.

(** [if (c) { body }] *)
Definition when (c : bool) (body : M unit) : M unit := if c then body else ret tt.

(** [for (unsigned short k = 0; k < n; k++) acc = body(k, acc);] *)
Fixpoint for_from {A} (k n : nat) (body : nat -> A -> M A) (acc : A) : M A :=
  match n with
  | O => ret acc
  | S n' => acc' <- body k acc ;; for_from (S k) n' body acc'
  end.

Definition for_upto {A} (n : nat) (body : nat -> A -> M A) (acc : A) : M A :=
  for_from 0 n body acc.

(** ** The virtual interface *)

Class ScalarModel : Type := {
  ExtraADPreaccIn : M unit;
  FinishResidualCalc : CConfig -> M unit
}.

(** [CNumerics::ResidualType<>]: the flux and the two Jacobians as they
    stand when the method returns. *)
Record ResidualType : Type := mkResidual {
  residual : list slot;
  jacobian_i : list (list slot);
  jacobian_j : list (list slot)
}.

(** ** ComputeResidual *)

(** Lines 123-140: the densities, the face-normal convective speed and its
    split.  The local variable [q_ij] is the value returned. *)
Definition ConvectiveSplit : M Q :=
  nd <- gets nDim ;;
  rho_i <- read V_i (nd + 2) ;;
  modify (set_Density_i rho_i) ;;
  rho_j <- read V_j (nd + 2) ;;
  modify (set_Density_j rho_j) ;;
  dyn <- gets dynamic_grid ;;
  q_ij <- (if dyn then
             for_upto nd (fun iDim q_ij =>
               vi <- read V_i (iDim + 1) ;;
               gi <- read GridVel_i iDim ;;
               let Velocity_i := vi - gi in
               vj <- read V_j (iDim + 1) ;;
               gj <- read GridVel_j iDim ;;
               let Velocity_j := vj - gj in
               n <- read Normal iDim ;;
               ret (q_ij + (1 # 2) * (Velocity_i + Velocity_j) * n)) 0
           else
             for_upto nd (fun iDim q_ij =>
               vi <- read V_i (iDim + 1) ;;
               vj <- read V_j (iDim + 1) ;;
               n <- read Normal iDim ;;
               ret (q_ij + (1 # 2) * (vi + vj) * n)) 0) ;;
  modify (set_a0 ((1 # 2) * (q_ij + Qabs q_ij))) ;;
  modify (set_a1 ((1 # 2) * (q_ij - Qabs q_ij))) ;;
  ret q_ij.

Definition ComputeResidual `{ScalarModel} (config : CConfig) : M ResidualType :=
  emit StartPreacc ;;
  nd <- gets nDim ;;
  nv <- gets nVar ;;
  emit (SetPreaccIn Arr_Normal nd) ;;
  emit (SetPreaccIn Arr_ScalarVar_i nv) ;;
  emit (SetPreaccIn Arr_ScalarVar_j nv) ;;
  dyn <- gets dynamic_grid ;;
  when dyn (emit (SetPreaccIn Arr_GridVel_i nd) ;;
            emit (SetPreaccIn Arr_GridVel_j nd)) ;;
  ExtraADPreaccIn ;;
  ConvectiveSplit ;;
  FinishResidualCalc config ;;
  nv' <- gets nVar ;;
  emit (SetPreaccOut Arr_Flux nv') ;;
  emit EndPreacc ;;
  s <- gets (fun s => s) ;;
  ret (mkResidual (Flux s) (Jacobian_i s) (Jacobian_j s)).

(** ** Construction *)

(** [new su2double[n]]: [n] default-initialised objects.  The type
    [su2double] is declared outside this header, so what default
    initialisation leaves in an entry is a parameter: [None] (indeterminate)
    when [su2double] is [double], [Some x] when it is a class type whose
    default constructor stores [x]. *)
Definition new_su2double (default_init : slot) (n : nat) : list slot :=
  repeat default_init n.

(** Modelled from the spec: the base-class constructor [CNumerics(ndim,
    nvar, config)] is not part of this header.  It fixes the dimensions;
    the per-edge inputs are set later by the caller, so the pointers are
    null (the empty array) and the densities hold no value yet. *)
Definition CNumerics_ctor (ndim nvar : nat) (config : CConfig) : CUpwScalar :=
  mkUpw ndim nvar [] [] [] [] [] [] [] None None
        0 0 [] [] []
        false false false.

(** Lines 77-89, with the default member initialisers of lines 50-56. *)
Definition CUpwScalar_ctor (default_init : slot) (ndim nvar : nat) (config : CConfig)
  : CUpwScalar :=
  let base := CNumerics_ctor ndim nvar config in
  let nv := nVar base in
  mkUpw (nDim base) (nVar base) (Normal base) (V_i base) (V_j base)
        (ScalarVar_i base) (ScalarVar_j base) (GridVel_i base) (GridVel_j base)
        (Density_i base) (Density_j base)
        0 0
        (new_su2double default_init nv)
        (map (fun _ => new_su2double default_init nv) (seq 0 nv))
        (map (fun _ => new_su2double default_init nv) (seq 0 nv))
        (TimeIntScheme_eqb (GetKind_TimeIntScheme_Turb config) EULER_IMPLICIT)
        (ENUM_REGIME_eqb (GetKind_Regime config) INCOMPRESSIBLE)
        (GetDynamic_Grid config).

(** ** The linear upwind model *)

(** [p[k] = x] for a pointer [p] to the first entry of the array [l]. *)
Fixpoint store {A} (l : list A) (k : nat) (x : A) : option (list A) :=
  match l, k with
  | [], _ => None
  | _ :: t, O => Some (x :: t)
  | h :: t, S k' => option_map (cons h) (store t k' x)
  end.

(** [m[r][c] = x] *)
Definition store2 {A} (m : list (list A)) (r c : nat) (x : A) : option (list (list A)) :=
  match nth_error m r with
  | None => None
  | Some row =>
      match store row c x with
      | None => None
      | Some row' => store m r row'
      end
  end.

(** Modelled from the spec: the concrete model classes are not part of
    this header.  "For a purely linear upwind model this is
    Flux = a0·scalar_i + a1·scalar_j (vector form, one entry per transported
    quantity) with Jacobian_i = a0·Identity, Jacobian_j = a1·Identity", and a
    model "must write every entry of Flux and both Jacobians".  The extra
    tracked inputs are the two primitive states, the only state beyond the
    base set that the flux depends on. *)
Definition Linear_ExtraADPreaccIn : M unit :=
  nd <- gets nDim ;;
  emit (SetPreaccIn Arr_V_i (nd + 1)) ;;
  emit (SetPreaccIn Arr_V_j (nd + 1)).

Definition Linear_FinishResidualCalc (config : CConfig) : M unit :=
  nv <- gets nVar ;;
  for_upto nv (fun iVar _ =>
    c0 <- gets a0 ;;
    c1 <- gets a1 ;;
    si <- read ScalarVar_i iVar ;;
    sj <- read ScalarVar_j iVar ;;
    F <- gets Flux ;;
    F' <- lift (store F iVar (Some (c0 * si + c1 * sj))) ;;
    modify (set_Flux F') ;;
    for_upto nv (fun jVar _ =>
      Ji <- gets Jacobian_i ;;
      Ji' <- lift (store2 Ji iVar jVar (Some (if Nat.eqb iVar jVar then c0 else 0))) ;;
      modify (set_Jacobian_i Ji') ;;
      Jj <- gets Jacobian_j ;;
      Jj' <- lift (store2 Jj iVar jVar (Some (if Nat.eqb iVar jVar then c1 else 0))) ;;
      modify (set_Jacobian_j Jj')) tt) tt.

Definition LinearUpwind : ScalarModel :=
  {| ExtraADPreaccIn := Linear_ExtraADPreaccIn;
     FinishResidualCalc := Linear_FinishResidualCalc |}.

(** ** The two concrete scenarios of the specification *)

(** The caller's setters: the per-edge inputs are stored before the call. *)
Definition SetInputs (N Vi Vj Si Sj : list Q) (s : CUpwScalar) : CUpwScalar :=
  mkUpw (nDim s) (nVar s) N Vi Vj Si Sj
        (GridVel_i s) (GridVel_j s) (Density_i s) (Density_j s)
        (a0 s) (a1 s) (Flux s) (Jacobian_i s) (Jacobian_j s)
        (implicit s) (incompressible s) (dynamic_grid s).

Definition static_config : CConfig := mkConfig EULER_IMPLICIT COMPRESSIBLE false.
Definition moving_config : CConfig := mkConfig EULER_IMPLICIT COMPRESSIBLE true.

(** The primitive state of a side in two dimensions: index 0 is not read
    here, indices 1 and 2 are the velocity, index [nDim + 2 = 4] is the
    density; index 3 is not read either. *)
Definition primitive2 (u v rho : Q) : list Q := [0; u; v; 0; rho].

(** nDim = 2, nVar = 1, Normal = [1,0], side-i velocity [2,0], side-j
    velocity [-1,0], density 1 on both sides. *)
Definition scenario (config : CConfig) (scalar_i scalar_j : Q) : CUpwScalar :=
  SetInputs [1; 0] (primitive2 2 0 1) (primitive2 (-1) 0 1) [scalar_i] [scalar_j]
            (CUpwScalar_ctor None 2 1 config).

Definition static_scenario (scalar_i scalar_j : Q) : CUpwScalar :=
  scenario static_config scalar_i scalar_j.

Definition moving_scenario (scalar_i scalar_j : Q) : CUpwScalar :=
  SetGridVel [2; 0] [2; 0] (scenario moving_config scalar_i scalar_j).

(** ** The convective speed as the specification words it *)

(** The entry [l[k]] of an array that is long enough. *)
Definition entry (l : list Q) (k : nat) : Q := nth k l 0.

(** "flow velocity minus grid velocity if moving, flow velocity otherwise" *)
Definition relative_velocity_i (s : CUpwScalar) (d : nat) : Q :=
  if dynamic_grid s then entry (V_i s) (d + 1) - entry (GridVel_i s) d
  else entry (V_i s) (d + 1).

Definition relative_velocity_j (s : CUpwScalar) (d : nat) : Q :=
  if dynamic_grid s then entry (V_j s) (d + 1) - entry (GridVel_j s) d
  else entry (V_j s) (d + 1).

(** [f 0 + ... + f (n - 1)], summed in increasing order of the index. *)
Fixpoint Qsum (f : nat -> Q) (n : nat) : Q :=
  match n with
  | O => 0
  | S n' => Qsum f n' + f n'
  end.

(** "q = Σ 0.5·(v_i+v_j)·N" *)
Definition face_speed (s : CUpwScalar) : Q :=
  Qsum (fun d => (1 # 2) * (relative_velocity_i s d + relative_velocity_j s d)
                 * entry (Normal s) d) (nDim s).

(** Every array is long enough for the reads of lines 123-140. *)
Definition inputs_in_bounds (s : CUpwScalar) : bool :=
  (nDim s + 3 <=? length (V_i s))%nat
  && (nDim s + 3 <=? length (V_j s))%nat
  && (nDim s <=? length (Normal s))%nat
  && (if dynamic_grid s
      then (nDim s <=? length (GridVel_i s))%nat && (nDim s <=? length (GridVel_j s))%nat
      else true).

(** The object that lines 123-140 leave behind when the speed is [q]. *)
Definition split_state (s : CUpwScalar) (q : Q) : CUpwScalar :=
  set_a1 ((1 # 2) * (q - Qabs q))
    (set_a0 ((1 # 2) * (q + Qabs q))
       (set_Density_j (entry (V_j s) (nDim s + 2))
          (set_Density_i (entry (V_i s) (nDim s + 2)) s))).

(** The events [ComputeResidual] itself appends before and after the model's. *)
Definition tape_prologue (s : CUpwScalar) : list ad_event :=
  [StartPreacc;
   SetPreaccIn Arr_Normal (nDim s);
   SetPreaccIn Arr_ScalarVar_i (nVar s);
   SetPreaccIn Arr_ScalarVar_j (nVar s)]
  ++ (if dynamic_grid s
      then [SetPreaccIn Arr_GridVel_i (nDim s); SetPreaccIn Arr_GridVel_j (nDim s)]
      else []).

Definition tape_epilogue (s : CUpwScalar) : list ad_event :=
  [SetPreaccOut Arr_Flux (nVar s); EndPreacc].

Definition view (s : CUpwScalar) : ResidualType :=
  mkResidual (Flux s) (Jacobian_i s) (Jacobian_j s).

(** Equality of buffers up to the value of the rationals they hold. *)
Definition slot_eq (x y : slot) : Prop :=
  match x, y with
  | Some a, Some b => a == b
  | None, None => True
  | _, _ => False
  end.

Definition vector_eq (u v : list slot) : Prop := Forall2 slot_eq u v.
Definition matrix_eq (m n : list (list slot)) : Prop := Forall2 vector_eq m n.

(** A buffer entry that holds zero. *)
Definition holds_zero (x : slot) : Prop := slot_eq x (Some 0).

(** The three buffers have the sizes the constructor asks for. *)
Definition buffers_allocated (s : CUpwScalar) : Prop :=
  length (Flux s) = nVar s
  /\ length (Jacobian_i s) = nVar s
  /\ length (Jacobian_j s) = nVar s
  /\ Forall (fun row => length row = nVar s) (Jacobian_i s)
  /\ Forall (fun row => length row = nVar s) (Jacobian_j s).

(** Every entry of the three buffers satisfies [P]. *)
Definition buffers_all (P : slot -> Prop) (s : CUpwScalar) : Prop :=
  Forall P (Flux s)
  /\ Forall (Forall P) (Jacobian_i s)
  /\ Forall (Forall P) (Jacobian_j s).

(** Moving mesh, flow velocity equal to grid velocity on both sides:
    [7,3] on side i and [-4,9] on side j, with face normal [1,2]. *)
Definition comoving_scenario : CUpwScalar :=
  SetGridVel [7; 3] [-4; 9]
    (SetInputs [1; 2] (primitive2 7 3 1) (primitive2 (-4) 9 1) [3] [5]
       (CUpwScalar_ctor None 2 1 moving_config)).

(** The static scenario with a face normal of zero length. *)
Definition degenerate_scenario : CUpwScalar :=
  SetInputs [0; 0] (primitive2 2 0 1) (primitive2 (-1) 0 1) [3] [5]
    (CUpwScalar_ctor None 2 1 static_config).

(** ** Other inputs a caller can hand over *)

(** The same edge seen from the other control volume: the two sides are
    exchanged and the face normal points the other way. *)
Definition reverse_edge (s : CUpwScalar) : CUpwScalar :=
  mkUpw (nDim s) (nVar s) (map Qopp (Normal s)) (V_j s) (V_i s)
        (ScalarVar_j s) (ScalarVar_i s) (GridVel_j s) (GridVel_i s)
        (Density_i s) (Density_j s)
        (a0 s) (a1 s) (Flux s) (Jacobian_i s) (Jacobian_j s)
        (implicit s) (incompressible s) (dynamic_grid s).

(** The same edge with a face normal [c] times as long. *)
Definition scale_Normal (c : Q) (s : CUpwScalar) : CUpwScalar :=
  mkUpw (nDim s) (nVar s) (map (Qmult c) (Normal s)) (V_i s) (V_j s)
        (ScalarVar_i s) (ScalarVar_j s) (GridVel_i s) (GridVel_j s)
        (Density_i s) (Density_j s)
        (a0 s) (a1 s) (Flux s) (Jacobian_i s) (Jacobian_j s)
        (implicit s) (incompressible s) (dynamic_grid s).

(** A derived class that computes the flux of its first variable and no
    Jacobian, as a model may when [implicit] is false; it registers no
    extra input. *)
Definition FluxOnly_FinishResidualCalc (config : CConfig) : M unit :=
  c0 <- gets a0 ;;
  c1 <- gets a1 ;;
  si <- read ScalarVar_i 0 ;;
  sj <- read ScalarVar_j 0 ;;
  F <- gets Flux ;;
  F' <- lift (store F 0 (Some (c0 * si + c1 * sj))) ;;
  modify (set_Flux F').

Definition FluxOnly : ScalarModel :=
  {| ExtraADPreaccIn := ret tt;
     FinishResidualCalc := FluxOnly_FinishResidualCalc |}.

(** ** Construction and destruction on the free store *)

(** The constructor and the destructor are about storage, so they are also
    modelled one level down, where a buffer is a block of the free store
    and the object holds pointers.  Addresses are never reused: a released
    block stays in the store as [None], so that releasing it again, or
    reading through a dangling pointer, is the failed run it is in C++. *)
Inductive pointer : Type :=
  | nullptr
  | addr (a : nat).

Inductive block : Type :=
  | su2double_array (cells : list slot)
  | pointer_array (cells : list (option pointer)).

Definition store_t : Type := list (option block).

Definition St (A : Type) : Type := store_t -> option (A * store_t).

Definition st_ret {A} (x : A) : St A := fun h => Some (x, h).

Definition st_bind {A B} (m : St A) (k : A -> St B) : St B :=
  fun h => match m h with
           | None => None
           | Some (x, h1) => k x h1
           end.

Declare Scope store_scope.
Delimit Scope store_scope with store.
Notation "x <- m ;; k" := (st_bind m (fun x => k))
  (at level 61, m at next level, right associativity) : store_scope.
Notation "m ;; k" := (st_bind m (fun _ => k))
  (at level 61, right associativity) : store_scope.

(** [new T[n]]: a fresh block after all the others. *)
Definition new_block (b : block) : St pointer :=
  fun h => Some (addr (length h), h ++ [Some b]).

(** [new su2double[n]] and [new su2double*[n]]; the pointers of the latter
    are indeterminate until assigned. *)
Definition new_su2double_array (default_init : slot) (n : nat) : St pointer :=
  new_block (su2double_array (new_su2double default_init n)).

Definition new_pointer_array (n : nat) : St pointer :=
  new_block (pointer_array (repeat None n)).

(** The live block a pointer designates. *)
Definition deref (p : pointer) : St block :=
  fun h => match p with
           | nullptr => None
           | addr a => match nth_error h a with
                       | Some (Some b) => Some (b, h)
                       | _ => None
                       end
           end.

Definition put_block (p : pointer) (b : option block) : St unit :=
  fun h => match p with
           | nullptr => None
           | addr a => match store h a b with
                       | Some h' => Some (tt, h')
                       | None => None
                       end
           end.

(** [p[k] = q] and [p[k]] for [p] of type [su2double**]. *)
Definition store_pointer (p : pointer) (k : nat) (q : pointer) : St unit :=
  (b <- deref p ;;
   match b with
   | pointer_array cells =>
       match store cells k (Some q) with
       | Some cells' => put_block p (Some (pointer_array cells'))
       | None => fun _ => None
       end
   | su2double_array _ => fun _ => None
   end)%store.

Definition load_pointer (p : pointer) (k : nat) : St pointer :=
  (b <- deref p ;;
   match b with
   | pointer_array cells =>
       match nth_error cells k with
       | Some (Some q) => st_ret q
       | _ => fun _ => None
       end
   | su2double_array _ => fun _ => None
   end)%store.

(** [delete[] p]: nothing for the null pointer, release of a live block
    otherwise. *)
Definition delete_array (p : pointer) : St unit :=
  match p with
  | nullptr => st_ret tt
  | addr _ => (_ <- deref p ;; put_block p None)%store
  end.

Fixpoint st_for_from (k n : nat) (body : nat -> St unit) : St unit :=
  match n with
  | O => st_ret tt
  | S n' => (body k ;; st_for_from (S k) n' body)%store
  end.

Definition st_for_upto (n : nat) (body : nat -> St unit) : St unit :=
  st_for_from 0 n body.

(** The pointer members of the object, with the [nVar] of the base class. *)
Record CUpwScalar_members : Type := mkMembers {
  m_nVar : nat;
  m_Flux : pointer;
  m_Jacobian_i : pointer;
  m_Jacobian_j : pointer
}.

(** The members before the constructor body runs (lines 52-54). *)
Definition default_members (nvar : nat) : CUpwScalar_members :=
  mkMembers nvar nullptr nullptr nullptr.

(** Lines 82-88. *)
Definition CUpwScalar_ctor_body (default_init : slot) (nvar : nat)
  : St CUpwScalar_members :=
  (F <- new_su2double_array default_init nvar ;;
   Ji <- new_pointer_array nvar ;;
   Jj <- new_pointer_array nvar ;;
   st_for_upto nvar (fun iVar =>
     ri <- new_su2double_array default_init nvar ;;
     store_pointer Ji iVar ri ;;
     rj <- new_su2double_array default_init nvar ;;
     store_pointer Jj iVar rj) ;;
   st_ret (mkMembers nvar F Ji Jj))%store.

(** Lines 94-104. *)
Definition CUpwScalar_dtor (o : CUpwScalar_members) : St unit :=
  (delete_array (m_Flux o) ;;
   match m_Jacobian_i o with
   | nullptr => st_ret tt
   | addr _ =>
       st_for_upto (m_nVar o) (fun iVar =>
         ri <- load_pointer (m_Jacobian_i o) iVar ;;
         delete_array ri ;;
         rj <- load_pointer (m_Jacobian_j o) iVar ;;
         delete_array rj) ;;
       delete_array (m_Jacobian_i o) ;;
       delete_array (m_Jacobian_j o)
   end)%store.

(** The buffers as [ComputeResidual] sees them: the flux block, and the
    rows the two pointer blocks designate. *)
Definition fetch_vector (h : store_t) (p : pointer) : option (list slot) :=
  match deref p h with
  | Some (su2double_array cells, _) => Some cells
  | _ => None
  end.

Fixpoint fetch_rows (h : store_t) (ps : list (option pointer)) : option (list (list slot)) :=
  match ps with
  | [] => Some []
  | Some p :: ps' =>
      match fetch_vector h p, fetch_rows h ps' with
      | Some row, Some rows => Some (row :: rows)
      | _, _ => None
      end
  | None :: _ => None
  end.

Definition fetch_matrix (h : store_t) (p : pointer) : option (list (list slot)) :=
  match deref p h with
  | Some (pointer_array ps, _) => fetch_rows h ps
  | _ => None
  end.

Definition fetch_view (h : store_t) (o : CUpwScalar_members) : option ResidualType :=
  match fetch_vector h (m_Flux o), fetch_matrix h (m_Jacobian_i o),
        fetch_matrix h (m_Jacobian_j o) with
  | Some f, Some ji, Some jj => Some (mkResidual f ji jj)
  | _, _, _ => None
  end.

(** The number of live blocks. *)
Definition live_blocks (h : store_t) : nat :=
  length (filter (fun b => match b with Some _ => true | None => false end) h).

(** The blocks of an object under construction, after [k] of the [k + r]
    rounds of the loop of lines 85-88; [base] is the address of the flux. *)
Definition row_block (default_init : slot) (n : nat) : option block :=
  Some (su2double_array (new_su2double default_init n)).

Definition row_pointers (first k : nat) : list (option pointer) :=
  map (fun j => Some (addr (first + 2 * j))) (seq 0 k).

Definition pairs {A} (x : A) (k : nat) : list A := concat (repeat [x; x] k).

Definition built (default_init : slot) (n base k r : nat) : store_t :=
  row_block default_init n
  :: Some (pointer_array (row_pointers (base + 3) k ++ repeat None r))
  :: Some (pointer_array (row_pointers (base + 4) k ++ repeat None r))
  :: pairs (row_block default_init n) k.

(** The same blocks while the destructor runs: the flux is released, and
    so are the rows of the first [k] of [k + r] rounds of lines 97-100. *)
Definition torn_down (default_init : slot) (n base k r : nat) : store_t :=
  None
  :: Some (pointer_array (row_pointers (base + 3) (k + r)))
  :: Some (pointer_array (row_pointers (base + 4) (k + r)))
  :: pairs None k ++ pairs (row_block default_init n) r.

(** ** Lines 123-140 in binary64 *)

(** Where [su2double] is [double], the arithmetic of lines 123-140 is that
    of IEEE binary64, with its rounding, infinities and NaN.  The same lines
    are embedded once more over the kernel's binary64 numbers; an edge is
    the part of the object these lines read, and a run yields the values
    they assign.  A read outside an array is again a failed run. *)
Module Binary64.
Import PrimFloat.
Local Open Scope float_scope.

Record edge : Type := mkEdge {
  e_nDim : nat;
  e_dynamic_grid : bool;
  e_Normal : list float;
  e_V_i : list float;
  e_V_j : list float;
  e_GridVel_i : list float;
  e_GridVel_j : list float
}.

Record split : Type := mkSplit {
  s_Density_i : float;
  s_Density_j : float;
  s_q_ij : float;
  s_a0 : float;
  s_a1 : float
}.

Definition andThen {A B} (m : option A) (k : A -> option B) : option B :=
  match m with
  | Some x => k x
  | None => None
  end.

Notation "x <- m ;; k" := (andThen m (fun x => k))
  (at level 61, m at next level, right associativity).

(** [for (unsigned short k = 0; k < n; k++) acc = body(k, acc);] *)
Fixpoint for_from (k n : nat) (body : nat -> float -> option float) (acc : float)
  : option float :=
  match n with
  | O => Some acc
  | S n' => acc' <- body k acc ;; for_from (S k) n' body acc'
  end.

Definition ConvectiveSplit (e : edge) : option split :=
  let nd := e_nDim e in
  rho_i <- nth_error (e_V_i e) (nd + 2) ;;
  rho_j <- nth_error (e_V_j e) (nd + 2) ;;
  q_ij <- (if e_dynamic_grid e then
             for_from 0 nd (fun iDim q_ij =>
               vi <- nth_error (e_V_i e) (iDim + 1) ;;
               gi <- nth_error (e_GridVel_i e) iDim ;;
               let Velocity_i := vi - gi in
               vj <- nth_error (e_V_j e) (iDim + 1) ;;
               gj <- nth_error (e_GridVel_j e) iDim ;;
               let Velocity_j := vj - gj in
               n <- nth_error (e_Normal e) iDim ;;
               Some (q_ij + 0.5 * (Velocity_i + Velocity_j) * n)) 0
           else
             for_from 0 nd (fun iDim q_ij =>
               vi <- nth_error (e_V_i e) (iDim + 1) ;;
               vj <- nth_error (e_V_j e) (iDim + 1) ;;
               n <- nth_error (e_Normal e) iDim ;;
               Some (q_ij + 0.5 * (vi + vj) * n)) 0) ;;
  Some (mkSplit rho_i rho_j q_ij
          (0.5 * (q_ij + abs q_ij))
          (0.5 * (q_ij - abs q_ij))).

(** Static mesh, nDim = 2, face normal [0,0], velocity [2^1023, 0] and
    density 1 on both sides: every input is a finite number. *)
Definition overflowing_edge : edge :=
  mkEdge 2 false [0; 0]
         [0; 0x1p1023; 0; 0; 1]
         [0; 0x1p1023; 0; 0; 1]
         [] [].

Definition inputs_finite (e : edge) : bool :=
  forallb is_finite
    (e_Normal e ++ e_V_i e ++ e_V_j e ++ e_GridVel_i e ++ e_GridVel_j e).

End Binary64.

(** * Properties *)

(** ** Equations of the sequencing operator *)

Lemma bind_gets {A B} (f : CUpwScalar -> A) (k : A -> M B) (s : CUpwScalar) :
  bind (gets f) k s = k (f s) s.
Proof. unfold bind, gets. destruct (k (f s) s) as [[[y s2] l2]|]; reflexivity. Qed.

Lemma bind_modify {B} (f : CUpwScalar -> CUpwScalar) (k : unit -> M B) (s : CUpwScalar) :
  bind (modify f) k s = k tt (f s).
Proof. unfold bind, modify. destruct (k tt (f s)) as [[[y s2] l2]|]; reflexivity. Qed.

Lemma bind_ret {A B} (x : A) (k : A -> M B) (s : CUpwScalar) :
  bind (ret x) k s = k x s.
Proof. unfold bind, ret. destruct (k x s) as [[[y s2] l2]|]; reflexivity. Qed.

Lemma bind_emit {B} (e : ad_event) (k : unit -> M B) (s : CUpwScalar) :
  bind (emit e) k s
  = match k tt s with
    | Some (y, s2, l2) => Some (y, s2, e :: l2)
    | None => None
    end.
Proof. reflexivity. Qed.

Lemma bind_silent {A B} (m : M A) (k : A -> M B) (s s1 : CUpwScalar) (x : A) :
  m s = Some (x, s1, []) -> bind m k s = k x s1.
Proof.
  intros E. unfold bind. rewrite E.
  destruct (k x s1) as [[[y s2] l2]|]; reflexivity.
Qed.

Lemma bind_fails {A B} (m : M A) (k : A -> M B) (s : CUpwScalar) :
  m s = None -> bind m k s = None.
Proof. intros E. unfold bind. rewrite E. reflexivity. Qed.

Ltac run_pure :=
  repeat (first [ rewrite bind_gets | rewrite bind_modify | rewrite bind_ret ];
          cbv beta).

(** ** Array reads and loops *)

Lemma load_in_bounds (l : list Q) (k : nat) (s : CUpwScalar) :
  (k < length l)%nat -> load l k s = Some (entry l k, s, []).
Proof.
  intros Hk. unfold load, lift, entry.
  rewrite (nth_error_nth' l 0 Hk). reflexivity.
Qed.

Lemma load_out_of_bounds (l : list Q) (k : nat) (s : CUpwScalar) :
  (length l <= k)%nat -> load l k s = None.
Proof.
  intros Hk. unfold load, lift.
  destruct (nth_error l k) eqn:E; [|reflexivity].
  assert (nth_error l k <> None) as Hn by congruence.
  apply nth_error_Some in Hn. lia.
Qed.

Lemma read_in_bounds (field : CUpwScalar -> list Q) (k : nat) (s : CUpwScalar) :
  (k < length (field s))%nat -> read field k s = Some (entry (field s) k, s, []).
Proof.
  intros Hk. unfold read. rewrite bind_gets. apply load_in_bounds; exact Hk.
Qed.

Lemma read_out_of_bounds (field : CUpwScalar -> list Q) (k : nat) (s : CUpwScalar) :
  (length (field s) <= k)%nat -> read field k s = None.
Proof.
  intros Hk. unfold read. rewrite bind_gets. apply load_out_of_bounds; exact Hk.
Qed.

(** A loop whose body only computes: the object is unchanged, nothing
    reaches the tape, and the accumulator is folded over the indices. *)
Lemma for_from_pure {A} (body : nat -> A -> M A) (f : nat -> A -> A) (s : CUpwScalar) :
  forall n k acc,
    (forall j x, (k <= j < k + n)%nat -> body j x s = Some (f j x, s, [])) ->
    for_from k n body acc s
    = Some (fold_left (fun x j => f j x) (seq k n) acc, s, []).
Proof.
  induction n as [|n IH]; intros k acc Hbody; simpl.
  - reflexivity.
  - unfold bind. rewrite Hbody by lia.
    rewrite IH; [reflexivity|].
    intros j x Hj. apply Hbody. lia.
Qed.

(** A loop with an iteration whose body fails does not return. *)
Lemma for_from_fails {A} (body : nat -> A -> M A) (f : nat -> A -> A) (s : CUpwScalar) :
  forall n k acc j,
    (k <= j < k + n)%nat ->
    (forall i x, (k <= i < j)%nat -> body i x s = Some (f i x, s, [])) ->
    (forall x, body j x s = None) ->
    for_from k n body acc s = None.
Proof.
  induction n as [|n IH]; intros k acc j Hj Hpre Hfail; [lia|].
  simpl. unfold bind.
  destruct (Nat.eq_dec k j) as [->|Hne].
  - rewrite Hfail. reflexivity.
  - rewrite Hpre by lia.
    rewrite (IH (S k) (f k acc) j); [reflexivity|lia| |exact Hfail].
    intros i x Hi. apply Hpre. lia.
Qed.

Lemma fold_left_Qsum (g : nat -> Q) (n : nat) :
  fold_left (fun x j => x + g j) (seq 0 n) 0 = Qsum g n.
Proof.
  induction n as [|n IH]; [reflexivity|].
  rewrite seq_S, fold_left_app. simpl. rewrite IH. reflexivity.
Qed.

Lemma Qsum_zero (f : nat -> Q) (n : nat) :
  (forall d, (d < n)%nat -> f d == 0) -> Qsum f n == 0.
Proof.
  induction n as [|n IH]; intros H; simpl; [reflexivity|].
  rewrite IH by (intros; apply H; lia).
  rewrite (H n) by lia. reflexivity.
Qed.

(** ** The run of lines 123-140 *)

Lemma inputs_in_bounds_spec (s : CUpwScalar) :
  inputs_in_bounds s = true <->
  (nDim s + 3 <= length (V_i s))%nat /\
  (nDim s + 3 <= length (V_j s))%nat /\
  (nDim s <= length (Normal s))%nat /\
  (dynamic_grid s = true ->
   (nDim s <= length (GridVel_i s))%nat /\ (nDim s <= length (GridVel_j s))%nat).
Proof.
  unfold inputs_in_bounds.
  rewrite !andb_true_iff, !Nat.leb_le.
  destruct (dynamic_grid s).
  - rewrite andb_true_iff, !Nat.leb_le. intuition.
  - intuition congruence.
Qed.

Ltac fields :=
  cbn [nDim V_i V_j Normal GridVel_i GridVel_j dynamic_grid
       set_Density_i set_Density_j].

Ltac run_reads :=
  repeat first
    [ erewrite bind_silent by (apply read_in_bounds; fields; lia)
    | rewrite bind_fails by (apply read_out_of_bounds; fields; lia) ].

Lemma ConvectiveSplit_in_bounds (s : CUpwScalar) :
  inputs_in_bounds s = true ->
  ConvectiveSplit s = Some (face_speed s, split_state s (face_speed s), []).
Proof.
  intros Hb. apply inputs_in_bounds_spec in Hb.
  destruct Hb as (HVi & HVj & HN & HG).
  unfold ConvectiveSplit. run_pure.
  erewrite bind_silent by (apply read_in_bounds; lia). run_pure.
  erewrite bind_silent by (apply read_in_bounds; fields; lia). run_pure.
  unfold face_speed, relative_velocity_i, relative_velocity_j, split_state.
  fields. unfold for_upto.
  destruct (dynamic_grid s) eqn:Hdyn.
  - destruct (HG eq_refl) as [HGi HGj].
    erewrite bind_silent.
    2:{ apply (for_from_pure _
          (fun d q => q + (1 # 2) * (entry (V_i s) (d + 1) - entry (GridVel_i s) d
                                     + (entry (V_j s) (d + 1) - entry (GridVel_j s) d))
                          * entry (Normal s) d)).
        intros j x Hj. run_reads. reflexivity. }
    run_pure. rewrite fold_left_Qsum. reflexivity.
  - erewrite bind_silent.
    2:{ apply (for_from_pure _
          (fun d q => q + (1 # 2) * (entry (V_i s) (d + 1) + entry (V_j s) (d + 1))
                          * entry (Normal s) d)).
        intros j x Hj. run_reads. reflexivity. }
    run_pure. rewrite fold_left_Qsum. reflexivity.
Qed.

Lemma ConvectiveSplit_out_of_bounds (s : CUpwScalar) :
  inputs_in_bounds s = false -> ConvectiveSplit s = None.
Proof.
  intros Hb.
  assert (~ ((nDim s + 3 <= length (V_i s))%nat /\
             (nDim s + 3 <= length (V_j s))%nat /\
             (nDim s <= length (Normal s))%nat /\
             (dynamic_grid s = true ->
              (nDim s <= length (GridVel_i s))%nat /\
              (nDim s <= length (GridVel_j s))%nat))) as Hn.
  { intros H. apply inputs_in_bounds_spec in H. congruence. }
  clear Hb. unfold ConvectiveSplit. run_pure.
  destruct (le_lt_dec (nDim s + 3) (length (V_i s))) as [HVi|HVi];
    [|rewrite bind_fails by (apply read_out_of_bounds; lia); reflexivity].
  erewrite bind_silent by (apply read_in_bounds; lia). run_pure.
  destruct (le_lt_dec (nDim s + 3) (length (V_j s))) as [HVj|HVj];
    [|rewrite bind_fails by (apply read_out_of_bounds; fields; lia); reflexivity].
  erewrite bind_silent by (apply read_in_bounds; fields; lia). run_pure.
  fields. apply bind_fails. unfold for_upto.
  destruct (dynamic_grid s) eqn:Hdyn.
  - set (j0 := Nat.min (length (Normal s))
                 (Nat.min (length (GridVel_i s)) (length (GridVel_j s)))).
    assert (j0 < nDim s)%nat as Hj0 by (subst j0; lia).
    apply (for_from_fails _
      (fun d q => q + (1 # 2) * (entry (V_i s) (d + 1) - entry (GridVel_i s) d
                                 + (entry (V_j s) (d + 1) - entry (GridVel_j s) d))
                      * entry (Normal s) d) _ _ _ _ j0).
    + lia.
    + intros i x Hi. subst j0. run_reads. reflexivity.
    + intros x.
      destruct (le_lt_dec (length (GridVel_i s)) j0);
        destruct (le_lt_dec (length (GridVel_j s)) j0);
        destruct (le_lt_dec (length (Normal s)) j0);
        try (exfalso; subst j0; lia);
        run_reads; reflexivity.
  - apply (for_from_fails _
      (fun d q => q + (1 # 2) * (entry (V_i s) (d + 1) + entry (V_j s) (d + 1))
                      * entry (Normal s) d) _ _ _ _ (length (Normal s))).
    + assert (~ (nDim s <= length (Normal s))%nat) by (intros ?; apply Hn; intuition congruence).
      lia.
    + intros i x Hi. run_reads. reflexivity.
    + intros x. run_reads. reflexivity.
Qed.

(** Lines 123-140 return exactly when every read is inside its array; the
    value returned is the convective speed as the specification words it. *)
Lemma ConvectiveSplit_run (s : CUpwScalar) :
  ConvectiveSplit s
  = if inputs_in_bounds s
    then Some (face_speed s, split_state s (face_speed s), [])
    else None.
Proof.
  destruct (inputs_in_bounds s) eqn:Hb.
  - apply ConvectiveSplit_in_bounds; exact Hb.
  - apply ConvectiveSplit_out_of_bounds; exact Hb.
Qed.

(** ** The run of the whole method *)

(** [ComputeResidual] returns exactly when the model's two methods return
    and the reads of lines 123-140 are in bounds; the tape then holds the
    prologue, the model's events and the epilogue, in this order. *)
Lemma ComputeResidual_run `{ScalarModel} (config : CConfig) (s : CUpwScalar) :
  ComputeResidual config s
  = match ExtraADPreaccIn s with
    | None => None
    | Some (_, s1, l1) =>
        if inputs_in_bounds s1
        then match FinishResidualCalc config (split_state s1 (face_speed s1)) with
             | None => None
             | Some (_, s3, l3) =>
                 Some (view s3, s3,
                       tape_prologue s ++ l1 ++ l3 ++ tape_epilogue s3)
             end
        else None
    end.
Proof.
  unfold ComputeResidual, tape_prologue, tape_epilogue, view.
  rewrite bind_emit. run_pure. rewrite !bind_emit. run_pure.
  unfold when.
  destruct (dynamic_grid s); unfold bind at 1.
  - cbn [emit bind].
    unfold bind at 1.
    destruct (ExtraADPreaccIn s) as [[[[] s1] l1]|]; [|reflexivity].
    unfold bind at 1. rewrite ConvectiveSplit_run.
    destruct (inputs_in_bounds s1); [|reflexivity].
    unfold bind at 1.
    destruct (FinishResidualCalc config _) as [[[[] s3] l3]|]; [|reflexivity].
    run_pure. rewrite !bind_emit. run_pure. reflexivity.
  - cbn [ret].
    unfold bind at 1.
    destruct (ExtraADPreaccIn s) as [[[[] s1] l1]|]; [|reflexivity].
    unfold bind at 1. rewrite ConvectiveSplit_run.
    destruct (inputs_in_bounds s1); [|reflexivity].
    unfold bind at 1.
    destruct (FinishResidualCalc config _) as [[[[] s3] l3]|]; [|reflexivity].
    run_pure. rewrite !bind_emit. run_pure. reflexivity.
Qed.

(** The same run, read from its result. *)
Lemma ComputeResidual_returns_iff `{ScalarModel} (config : CConfig)
    (s s3 : CUpwScalar) (r : ResidualType) (tape : list ad_event) :
  ComputeResidual config s = Some (r, s3, tape)
  <->
  exists s1 l1 q s2 l3,
    ExtraADPreaccIn s = Some (tt, s1, l1)
    /\ ConvectiveSplit s1 = Some (q, s2, [])
    /\ FinishResidualCalc config s2 = Some (tt, s3, l3)
    /\ r = view s3
    /\ tape = tape_prologue s ++ l1 ++ l3 ++ tape_epilogue s3.
Proof.
  rewrite ComputeResidual_run. split.
  - destruct (ExtraADPreaccIn s) as [[[[] s1] l1]|]; [|discriminate].
    destruct (inputs_in_bounds s1) eqn:Hb; [|discriminate].
    destruct (FinishResidualCalc config _) as [[[[] s3'] l3]|] eqn:HF; [|discriminate].
    intros E. injection E as <- <- <-.
    exists s1, l1, (face_speed s1), (split_state s1 (face_speed s1)), l3.
    split; [reflexivity|].
    split; [apply ConvectiveSplit_in_bounds; exact Hb|].
    split; [exact HF|].
    split; reflexivity.
  - intros (s1 & l1 & q & s2 & l3 & HE & HS & HF & -> & ->).
    rewrite HE. rewrite ConvectiveSplit_run in HS.
    destruct (inputs_in_bounds s1); [|discriminate].
    injection HS as <- <-. rewrite HF. reflexivity.
Qed.

(** ** The split in exact arithmetic *)

Lemma split_a0_max (q : Q) : (1 # 2) * (q + Qabs q) == Qmax q 0.
Proof.
  destruct (Qlt_le_dec q 0) as [Hq|Hq].
  - rewrite Qabs_neg by lra. rewrite Q.max_r by lra. lra.
  - rewrite Qabs_pos by lra. rewrite Q.max_l by lra. lra.
Qed.

Lemma split_a1_min (q : Q) : (1 # 2) * (q - Qabs q) == Qmin q 0.
Proof.
  destruct (Qlt_le_dec q 0) as [Hq|Hq].
  - rewrite Qabs_neg by lra. rewrite Q.min_l by lra. lra.
  - rewrite Qabs_pos by lra. rewrite Q.min_r by lra. lra.
Qed.

Lemma split_cases (q : Q) :
  (q < 0 /\ (1 # 2) * (q + Qabs q) == 0 /\ (1 # 2) * (q - Qabs q) == q /\ Qabs q == - q)
  \/ (0 <= q /\ (1 # 2) * (q + Qabs q) == q /\ (1 # 2) * (q - Qabs q) == 0 /\ Qabs q == q).
Proof.
  destruct (Qlt_le_dec q 0) as [Hq|Hq]; [left|right].
  - rewrite Qabs_neg by lra. repeat split; lra.
  - rewrite Qabs_pos by lra. repeat split; lra.
Qed.

Lemma split_of_zero (q : Q) :
  q == 0 -> (1 # 2) * (q + Qabs q) == 0 /\ (1 # 2) * (q - Qabs q) == 0.
Proof.
  intros Hq. destruct (split_cases q) as [(H1 & H2 & H3 & _)|(H1 & H2 & H3 & _)];
    split; lra.
Qed.

(** * Verified properties *)

(** ** Convective speed and split *)

(** C1: on every call whose reads are in bounds, lines 123-140 return the
    convective speed q = sum over d < nDim of 0.5*(v_i[d] + v_j[d])*Normal[d],
    where v_s[d] is V_s[d+1] - GridVel_s[d] under dynamic_grid and V_s[d+1]
    otherwise ([face_speed]); without touching the tape; and they leave
    a0 = max(q, 0) and a1 = min(q, 0) in the object. *)
Theorem ConvectiveSplit_speed_and_split (s : CUpwScalar) :
  inputs_in_bounds s = true ->
  exists s',
    ConvectiveSplit s = Some (face_speed s, s', [])
    /\ a0 s' == Qmax (face_speed s) 0
    /\ a1 s' == Qmin (face_speed s) 0.
Proof.
  intros Hb. exists (split_state s (face_speed s)).
  split; [apply ConvectiveSplit_in_bounds; exact Hb|].
  cbn [split_state a0 a1 set_a0 set_a1].
  split; [apply split_a0_max | apply split_a1_min].
Qed.

Lemma ConvectiveSplit_speed_and_split_witness :
  inputs_in_bounds (moving_scenario 3 5) = true
  /\ exists s',
       ConvectiveSplit (moving_scenario 3 5)
       = Some (face_speed (moving_scenario 3 5), s', [])
       /\ a0 s' == Qmax (face_speed (moving_scenario 3 5)) 0
       /\ a1 s' == Qmin (face_speed (moving_scenario 3 5)) 0.
Proof.
  split; [reflexivity|].
  apply (ConvectiveSplit_speed_and_split (moving_scenario 3 5)). reflexivity.
Defined.

(** C2: for every face normal and every pair of two-sided velocity states
    (and grid velocities on a moving mesh), after the split step the
    coefficients satisfy a0 >= 0, a1 <= 0 and a0 + a1 = q, where q is the
    convective speed the step computed. *)
Theorem ConvectiveSplit_sign_and_sum (s : CUpwScalar) :
  inputs_in_bounds s = true ->
  exists q s',
    ConvectiveSplit s = Some (q, s', [])
    /\ 0 <= a0 s' /\ a1 s' <= 0 /\ a0 s' + a1 s' == q.
Proof.
  intros Hb. exists (face_speed s), (split_state s (face_speed s)).
  split; [apply ConvectiveSplit_in_bounds; exact Hb|].
  cbn [split_state a0 a1 set_a0 set_a1].
  destruct (split_cases (face_speed s)) as [(H1 & H2 & H3 & _)|(H1 & H2 & H3 & _)];
    repeat split; lra.
Qed.

Lemma ConvectiveSplit_sign_and_sum_witness :
  inputs_in_bounds (static_scenario 3 5) = true
  /\ exists q s',
       ConvectiveSplit (static_scenario 3 5) = Some (q, s', [])
       /\ 0 <= a0 s' /\ a1 s' <= 0 /\ a0 s' + a1 s' == q.
Proof.
  split; [reflexivity|].
  apply (ConvectiveSplit_sign_and_sum (static_scenario 3 5)). reflexivity.
Defined.

(** C9: after the split step a0 * a1 = 0 and a0 - a1 = |q|; at most one of
    the two coefficients is nonzero, and both are zero exactly when q = 0. *)
Theorem ConvectiveSplit_complementary (s : CUpwScalar) :
  inputs_in_bounds s = true ->
  exists q s',
    ConvectiveSplit s = Some (q, s', [])
    /\ a0 s' * a1 s' == 0
    /\ a0 s' - a1 s' == Qabs q
    /\ (a0 s' == 0 \/ a1 s' == 0)
    /\ ((a0 s' == 0 /\ a1 s' == 0) <-> q == 0).
Proof.
  intros Hb. exists (face_speed s), (split_state s (face_speed s)).
  split; [apply ConvectiveSplit_in_bounds; exact Hb|].
  cbn [split_state a0 a1 set_a0 set_a1].
  destruct (split_cases (face_speed s)) as [(H1 & H2 & H3 & H4)|(H1 & H2 & H3 & H4)];
    rewrite H2, H3, H4.
  - split; [ring|]. split; [ring|]. split; [left; reflexivity|].
    split; [intros [_ H]; exact H | intros H; lra].
  - split; [ring|]. split; [ring|]. split; [right; reflexivity|].
    split; [intros [H _]; exact H | intros H; lra].
Qed.

Lemma ConvectiveSplit_complementary_witness :
  inputs_in_bounds (moving_scenario 3 5) = true
  /\ exists q s',
       ConvectiveSplit (moving_scenario 3 5) = Some (q, s', [])
       /\ a0 s' * a1 s' == 0
       /\ a0 s' - a1 s' == Qabs q
       /\ (a0 s' == 0 \/ a1 s' == 0)
       /\ ((a0 s' == 0 /\ a1 s' == 0) <-> q == 0).
Proof.
  split; [reflexivity|].
  apply (ConvectiveSplit_complementary (moving_scenario 3 5)). reflexivity.
Defined.

(** C4: Galilean invariance.  With dynamic_grid set, if the flow velocity
    equals the grid velocity on both sides in every dimension, the
    convective speed is 0 and a0 = a1 = 0, whatever the common velocity. *)
Theorem ConvectiveSplit_Galilean_invariance (s : CUpwScalar) :
  inputs_in_bounds s = true ->
  dynamic_grid s = true ->
  (forall d, (d < nDim s)%nat -> entry (V_i s) (d + 1) == entry (GridVel_i s) d) ->
  (forall d, (d < nDim s)%nat -> entry (V_j s) (d + 1) == entry (GridVel_j s) d) ->
  exists q s',
    ConvectiveSplit s = Some (q, s', [])
    /\ q == 0 /\ a0 s' == 0 /\ a1 s' == 0.
Proof.
  intros Hb Hdyn Hi Hj. exists (face_speed s), (split_state s (face_speed s)).
  split; [apply ConvectiveSplit_in_bounds; exact Hb|].
  assert (face_speed s == 0) as Hq.
  { unfold face_speed. apply Qsum_zero. intros d Hd.
    unfold relative_velocity_i, relative_velocity_j. rewrite Hdyn.
    rewrite (Hi d Hd), (Hj d Hd). ring. }
  split; [exact Hq|].
  cbn [split_state a0 a1 set_a0 set_a1].
  apply split_of_zero; exact Hq.
Qed.

Lemma ConvectiveSplit_Galilean_invariance_witness :
  exists q s',
    ConvectiveSplit comoving_scenario = Some (q, s', [])
    /\ q == 0 /\ a0 s' == 0 /\ a1 s' == 0.
Proof.
  apply (ConvectiveSplit_Galilean_invariance comoving_scenario).
  - reflexivity.
  - reflexivity.
  - intros d Hd. simpl in Hd. destruct d as [|[|d]]; [reflexivity|reflexivity|lia].
  - intros d Hd. simpl in Hd. destruct d as [|[|d]]; [reflexivity|reflexivity|lia].
Defined.

(** ** Degenerate geometry *)

(** C7, as stated, fails in binary64: with a zero face normal and the
    finite velocity 2^1023 on both sides, the sum of the two velocities
    overflows to infinity, infinity times the zero normal component is NaN,
    and q, a0 and a1 are all NaN, not 0.  The run itself returns. *)
Lemma zero_normal_overflow_is_NaN :
  Binary64.inputs_finite Binary64.overflowing_edge = true
  /\ exists r,
       Binary64.ConvectiveSplit Binary64.overflowing_edge = Some r
       /\ PrimFloat.is_nan (Binary64.s_q_ij r) = true
       /\ PrimFloat.is_nan (Binary64.s_a0 r) = true
       /\ PrimFloat.is_nan (Binary64.s_a1 r) = true
       /\ PrimFloat.eqb (Binary64.s_q_ij r) PrimFloat.zero = false
       /\ PrimFloat.eqb (Binary64.s_a0 r) PrimFloat.zero = false
       /\ PrimFloat.eqb (Binary64.s_a1 r) PrimFloat.zero = false.
Proof.
  split; [vm_compute; reflexivity|].
  eexists. split; [vm_compute; reflexivity|].
  repeat split; vm_compute; reflexivity.
Qed.

(** C7, amended: a face normal whose nDim components are all zero is not an
    error, and in exact arithmetic it gives q = 0 and a0 = a1 = 0.  Once the
    model's ExtraADPreaccIn has returned and the reads are in bounds, the
    split step returns with these values, and the call then returns
    whenever the model's FinishResidualCalc does: the method has no failure
    path of its own. *)
Theorem zero_normal_completes `{ScalarModel} (config : CConfig)
    (s s1 : CUpwScalar) (l1 : list ad_event) :
  ExtraADPreaccIn s = Some (tt, s1, l1) ->
  inputs_in_bounds s1 = true ->
  (forall d, (d < nDim s1)%nat -> entry (Normal s1) d == 0) ->
  exists q s2,
    ConvectiveSplit s1 = Some (q, s2, [])
    /\ q == 0 /\ a0 s2 == 0 /\ a1 s2 == 0
    /\ forall s3 l3,
         FinishResidualCalc config s2 = Some (tt, s3, l3) ->
         ComputeResidual config s
         = Some (view s3, s3, tape_prologue s ++ l1 ++ l3 ++ tape_epilogue s3).
Proof.
  intros HE Hb HN. exists (face_speed s1), (split_state s1 (face_speed s1)).
  split; [apply ConvectiveSplit_in_bounds; exact Hb|].
  assert (face_speed s1 == 0) as Hq.
  { unfold face_speed. apply Qsum_zero. intros d Hd.
    rewrite (HN d Hd). ring. }
  split; [exact Hq|].
  cbn [split_state a0 a1 set_a0 set_a1].
  split; [apply split_of_zero; exact Hq|].
  split; [apply split_of_zero; exact Hq|].
  intros s3 l3 HF.
  rewrite ComputeResidual_run, HE, Hb, HF. reflexivity.
Qed.

Lemma zero_normal_completes_witness :
  exists q s2,
    ConvectiveSplit degenerate_scenario = Some (q, s2, [])
    /\ q == 0 /\ a0 s2 == 0 /\ a1 s2 == 0
    /\ forall s3 l3,
         Linear_FinishResidualCalc static_config s2 = Some (tt, s3, l3) ->
         @ComputeResidual LinearUpwind static_config degenerate_scenario
         = Some (view s3, s3,
                 tape_prologue degenerate_scenario
                 ++ [SetPreaccIn Arr_V_i 3; SetPreaccIn Arr_V_j 3]
                 ++ l3 ++ tape_epilogue s3).
Proof.
  apply (@zero_normal_completes LinearUpwind static_config
           degenerate_scenario degenerate_scenario
           [SetPreaccIn Arr_V_i 3; SetPreaccIn Arr_V_j 3]).
  - reflexivity.
  - reflexivity.
  - intros d Hd. simpl in Hd. destruct d as [|[|d]]; [reflexivity|reflexivity|lia].
Defined.

(** ** The differentiation bracket *)

(** C3: a call returns exactly when ExtraADPreaccIn, the split step and
    FinishResidualCalc return one after the other, each on the object the
    previous one left; and the tape then holds, once each and in this order:
    StartPreacc; Normal (nDim), ScalarVar_i (nVar), ScalarVar_j (nVar);
    GridVel_i and GridVel_j (nDim each) if and only if dynamic_grid is set;
    the events of ExtraADPreaccIn; the events of FinishResidualCalc (the
    split step adds none); Flux (nVar) as output; EndPreacc. *)
Theorem ComputeResidual_tape_order `{ScalarModel} (config : CConfig)
    (s s3 : CUpwScalar) (r : ResidualType) (tape : list ad_event) :
  ComputeResidual config s = Some (r, s3, tape)
  <->
  exists s1 l1 q s2 l3,
    ExtraADPreaccIn s = Some (tt, s1, l1)
    /\ ConvectiveSplit s1 = Some (q, s2, [])
    /\ FinishResidualCalc config s2 = Some (tt, s3, l3)
    /\ r = mkResidual (Flux s3) (Jacobian_i s3) (Jacobian_j s3)
    /\ tape
       = [StartPreacc]
         ++ [SetPreaccIn Arr_Normal (nDim s);
             SetPreaccIn Arr_ScalarVar_i (nVar s);
             SetPreaccIn Arr_ScalarVar_j (nVar s)]
         ++ (if dynamic_grid s
             then [SetPreaccIn Arr_GridVel_i (nDim s);
                   SetPreaccIn Arr_GridVel_j (nDim s)]
             else [])
         ++ l1
         ++ l3
         ++ [SetPreaccOut Arr_Flux (nVar s3)]
         ++ [EndPreacc].
Proof.
  rewrite ComputeResidual_returns_iff.
  unfold view, tape_prologue, tape_epilogue.
  split; intros (s1 & l1 & q & s2 & l3 & HE & HS & HF & Hr & Ht);
    exists s1, l1, q, s2, l3; repeat (split; [assumption|]);
    rewrite Ht; cbn [app]; reflexivity.
Qed.

Lemma ComputeResidual_tape_order_witness :
  exists r s3,
    @ComputeResidual LinearUpwind moving_config (moving_scenario 3 5)
    = Some (r, s3,
            [StartPreacc;
             SetPreaccIn Arr_Normal 2;
             SetPreaccIn Arr_ScalarVar_i 1;
             SetPreaccIn Arr_ScalarVar_j 1;
             SetPreaccIn Arr_GridVel_i 2;
             SetPreaccIn Arr_GridVel_j 2;
             SetPreaccIn Arr_V_i 3;
             SetPreaccIn Arr_V_j 3;
             SetPreaccOut Arr_Flux 1;
             EndPreacc]).
Proof.
  do 2 eexists.
  apply (proj2 (@ComputeResidual_tape_order LinearUpwind moving_config
                  (moving_scenario 3 5) _ _ _)).
  exists (moving_scenario 3 5), [SetPreaccIn Arr_V_i 3; SetPreaccIn Arr_V_j 3].
  do 3 eexists.
  split; [reflexivity|].
  split; [vm_compute; reflexivity|].
  split; [vm_compute; reflexivity|].
  split; reflexivity.
Defined.

(** ** Static mesh *)

(** C10: with dynamic_grid false, a call with other grid velocities, all
    else equal, computes the same q, a0 and a1; and the tape of a call holds
    no grid-velocity registration of the method's own: between StartPreacc
    and the model's events there are only Normal, ScalarVar_i, ScalarVar_j. *)
Theorem static_grid_ignores_GridVel `{ScalarModel} (config : CConfig)
    (s : CUpwScalar) (gi gj : list Q) :
  dynamic_grid s = false ->
  inputs_in_bounds s = true ->
  (exists q s1 s2,
      ConvectiveSplit s = Some (q, s1, [])
      /\ ConvectiveSplit (SetGridVel gi gj s) = Some (q, s2, [])
      /\ a0 s2 = a0 s1 /\ a1 s2 = a1 s1)
  /\ forall r s3 tape,
       ComputeResidual config s = Some (r, s3, tape) ->
       exists s' l1 q s2 l3,
         ExtraADPreaccIn s = Some (tt, s', l1)
         /\ ConvectiveSplit s' = Some (q, s2, [])
         /\ FinishResidualCalc config s2 = Some (tt, s3, l3)
         /\ tape
            = [StartPreacc;
               SetPreaccIn Arr_Normal (nDim s);
               SetPreaccIn Arr_ScalarVar_i (nVar s);
               SetPreaccIn Arr_ScalarVar_j (nVar s)]
              ++ l1 ++ l3
              ++ [SetPreaccOut Arr_Flux (nVar s3); EndPreacc]
         /\ filter registers_GridVel tape = filter registers_GridVel (l1 ++ l3).
Proof.
  intros Hdyn Hb. split.
  - assert (face_speed (SetGridVel gi gj s) = face_speed s) as Hq.
    { unfold face_speed, relative_velocity_i, relative_velocity_j.
      cbn [SetGridVel dynamic_grid V_i V_j Normal nDim]. rewrite Hdyn. reflexivity. }
    assert (inputs_in_bounds (SetGridVel gi gj s) = true) as Hb'.
    { revert Hb. unfold inputs_in_bounds.
      cbn [SetGridVel dynamic_grid V_i V_j Normal nDim]. rewrite Hdyn. trivial. }
    exists (face_speed s), (split_state s (face_speed s)),
           (split_state (SetGridVel gi gj s) (face_speed s)).
    split; [apply ConvectiveSplit_in_bounds; exact Hb|].
    split; [rewrite <- Hq; apply ConvectiveSplit_in_bounds; exact Hb'|].
    split; reflexivity.
  - intros r s3 tape HC.
    apply ComputeResidual_returns_iff in HC.
    destruct HC as (s' & l1 & q & s2 & l3 & HE & HS & HF & _ & ->).
    exists s', l1, q, s2, l3. unfold tape_prologue, tape_epilogue. rewrite Hdyn.
    repeat (split; [assumption || reflexivity|]).
    cbn [app filter registers_GridVel].
    rewrite !filter_app. cbn [filter registers_GridVel]. rewrite !app_nil_r.
    reflexivity.
Qed.

Lemma static_grid_ignores_GridVel_witness :
  (exists q s1 s2,
      ConvectiveSplit (static_scenario 3 5) = Some (q, s1, [])
      /\ ConvectiveSplit (SetGridVel [2; 0] [2; 0] (static_scenario 3 5))
         = Some (q, s2, [])
      /\ a0 s2 = a0 s1 /\ a1 s2 = a1 s1)
  /\ forall r s3 tape,
       @ComputeResidual LinearUpwind static_config (static_scenario 3 5)
       = Some (r, s3, tape) ->
       exists s' l1 q s2 l3,
         Linear_ExtraADPreaccIn (static_scenario 3 5) = Some (tt, s', l1)
         /\ ConvectiveSplit s' = Some (q, s2, [])
         /\ Linear_FinishResidualCalc static_config s2 = Some (tt, s3, l3)
         /\ tape
            = [StartPreacc;
               SetPreaccIn Arr_Normal (nDim (static_scenario 3 5));
               SetPreaccIn Arr_ScalarVar_i (nVar (static_scenario 3 5));
               SetPreaccIn Arr_ScalarVar_j (nVar (static_scenario 3 5))]
              ++ l1 ++ l3
              ++ [SetPreaccOut Arr_Flux (nVar s3); EndPreacc]
         /\ filter registers_GridVel tape = filter registers_GridVel (l1 ++ l3).
Proof.
  apply (@static_grid_ignores_GridVel LinearUpwind static_config
           (static_scenario 3 5) [2; 0] [2; 0]); reflexivity.
Defined.

(** ** The concrete scenarios *)

(** C8: static mesh, nDim = 2, nVar = 1, Normal = [1,0], velocities [2,0]
    and [-1,0], density 1 on both sides: q = 0.5*(2 + (-1)) = 0.5, a0 = 0.5,
    a1 = 0; with scalar_i = 3, scalar_j = 5 and the linear upwind model the
    call returns Flux = [1.5], Jacobian_i = [0.5], Jacobian_j = [0]. *)
Theorem static_scenario_result :
  exists q s2 r s3 tape,
    ConvectiveSplit (static_scenario 3 5) = Some (q, s2, [])
    /\ q == (1 # 2) * (2 + (-1)) /\ q == 1 # 2
    /\ a0 s2 == 1 # 2 /\ a1 s2 == 0
    /\ @ComputeResidual LinearUpwind static_config (static_scenario 3 5)
       = Some (r, s3, tape)
    /\ a0 s3 == 1 # 2 /\ a1 s3 == 0
    /\ vector_eq (residual r) [Some (3 # 2)]
    /\ matrix_eq (jacobian_i r) [[Some (1 # 2)]]
    /\ matrix_eq (jacobian_j r) [[Some 0]].
Proof.
  do 5 eexists.
  split; [vm_compute; reflexivity|].
  split; [reflexivity|]. split; [reflexivity|].
  split; [reflexivity|]. split; [reflexivity|].
  split; [vm_compute; reflexivity|].
  split; [reflexivity|]. split; [reflexivity|].
  split; [repeat constructor|].
  split; repeat constructor.
Qed.

(** C5, as stated, fails: in the moving-mesh scenario the relative velocity
    of side j is [-1,0] - [2,0] = [-3,0], not [0,0]; the speed is -1.5, a1 is
    -1.5, and with scalar_i = 3, scalar_j = 5 the flux is [-7.5], not [0]. *)
Lemma moving_scenario_flux_not_zero :
  exists q s2 r s3 tape,
    ConvectiveSplit (moving_scenario 3 5) = Some (q, s2, [])
    /\ @ComputeResidual LinearUpwind moving_config (moving_scenario 3 5)
       = Some (r, s3, tape)
    /\ ~ relative_velocity_j (moving_scenario 3 5) 0 == 0
    /\ ~ q == 0
    /\ ~ a1 s2 == 0
    /\ ~ vector_eq (residual r) [Some 0].
Proof.
  do 5 eexists.
  split; [vm_compute; reflexivity|].
  split; [vm_compute; reflexivity|].
  split; [intros H; vm_compute in H; discriminate|].
  split; [intros H; vm_compute in H; discriminate|].
  split; [intros H; vm_compute in H; discriminate|].
  intros H. inversion H as [|x y l l' Hxy _]; subst.
  vm_compute in Hxy. discriminate.
Qed.

(** C5, amended: in the moving-mesh scenario (grid velocity [2,0] on both
    sides) the relative velocity is [0,0] on side i and [-3,0] on side j, so
    q = -1.5, a0 = 0, a1 = -1.5, and with the linear upwind model the call
    returns Flux = [-1.5 * scalar_j], whatever scalar_i is. *)
Theorem moving_scenario_flux (scalar_i scalar_j : Q) :
  exists q s2 r s3 tape,
    ConvectiveSplit (moving_scenario scalar_i scalar_j) = Some (q, s2, [])
    /\ relative_velocity_i (moving_scenario scalar_i scalar_j) 0 == 0
    /\ relative_velocity_i (moving_scenario scalar_i scalar_j) 1 == 0
    /\ relative_velocity_j (moving_scenario scalar_i scalar_j) 0 == - (3)
    /\ relative_velocity_j (moving_scenario scalar_i scalar_j) 1 == 0
    /\ q == - (3 # 2) /\ a0 s2 == 0 /\ a1 s2 == - (3 # 2)
    /\ @ComputeResidual LinearUpwind moving_config (moving_scenario scalar_i scalar_j)
       = Some (r, s3, tape)
    /\ vector_eq (residual r) [Some (- (3 # 2) * scalar_j)].
Proof.
  do 5 eexists.
  split; [cbv -[Qmult Qplus Qabs Qminus Qopp]; reflexivity|].
  do 4 (split; [reflexivity|]).
  do 3 (split; [reflexivity|]).
  split; [cbv -[Qmult Qplus Qabs Qminus Qopp]; reflexivity|].
  cbn [residual]. constructor; [|constructor].
  unfold slot_eq.
  set (q := 0 + (1 # 2) * (2 - 2 + (-1 - 2)) * 1 + (1 # 2) * (0 - 0 + (0 - 0)) * 0).
  assert (q == - (3 # 2)) as Hq by reflexivity.
  rewrite Hq. rewrite Qabs_neg by lra. ring.
Qed.

(** ** Construction *)

(** C6, as stated, fails: when su2double is double, [new su2double[nVar]]
    leaves every entry indeterminate, and the constructor writes none. *)
Lemma constructor_buffers_not_zeroed :
  ~ buffers_all holds_zero (CUpwScalar_ctor None 2 1 static_config).
Proof.
  intros (HF & _). cbn in HF. inversion HF as [|x l Hx _]. exact Hx.
Qed.

(** C6, amended: after construction with (nDim, nVar) the dimensions are
    stored, Flux has nVar entries and both Jacobians have nVar rows of nVar
    entries, a0 and a1 are zero, and every buffer entry holds what default
    initialisation of su2double leaves: the constructor writes none. *)
Theorem constructor_buffers (default_init : slot) (ndim nvar : nat) (config : CConfig) :
  let s := CUpwScalar_ctor default_init ndim nvar config in
  nDim s = ndim /\ nVar s = nvar
  /\ buffers_allocated s
  /\ buffers_all (eq default_init) s
  /\ a0 s = 0 /\ a1 s = 0.
Proof.
  cbn zeta. unfold buffers_allocated, buffers_all, new_su2double.
  cbn [CUpwScalar_ctor CNumerics_ctor nDim nVar Flux Jacobian_i Jacobian_j a0 a1].
  assert (Forall (eq default_init) (repeat default_init nvar)) as Hrow.
  { apply Forall_forall. intros x Hx. symmetry. exact (repeat_spec _ _ _ Hx). }
  assert (Forall (Forall (eq default_init))
            (map (fun _ : nat => repeat default_init nvar) (seq 0 nvar))) as Hmat.
  { apply Forall_map, Forall_forall. intros; exact Hrow. }
  assert (Forall (fun row : list slot => length row = nvar)
            (map (fun _ : nat => repeat default_init nvar) (seq 0 nvar))) as Hlen.
  { apply Forall_map, Forall_forall. intros; apply repeat_length. }
  rewrite !length_map, !length_seq, repeat_length.
  repeat split; assumption.
Qed.

(** * Further properties of the method *)

(** ** When the split step returns, and what it touches *)

(** X1: lines 123-140 return exactly when both primitive arrays have at
    least nDim + 3 entries, the normal has at least nDim, and, under
    dynamic_grid, both grid velocities have at least nDim; otherwise a read
    leaves its array. *)
Theorem ConvectiveSplit_returns_iff_in_bounds (s : CUpwScalar) :
  (exists q s' tape, ConvectiveSplit s = Some (q, s', tape))
  <->
  ((nDim s + 3 <= length (V_i s))%nat
   /\ (nDim s + 3 <= length (V_j s))%nat
   /\ (nDim s <= length (Normal s))%nat
   /\ (dynamic_grid s = true ->
       (nDim s <= length (GridVel_i s))%nat /\ (nDim s <= length (GridVel_j s))%nat)).
Proof.
  rewrite <- inputs_in_bounds_spec, ConvectiveSplit_run.
  destruct (inputs_in_bounds s); split.
  - reflexivity.
  - intros _. eauto.
  - intros (q & s' & tape & E). discriminate.
  - discriminate.
Qed.

(** X2: the split step stores the densities V_i[nDim+2] and V_j[nDim+2] and
    the two coefficients, and nothing else: dimensions, inputs, flags and
    the three result buffers are as before. *)
Theorem ConvectiveSplit_frame (s s' : CUpwScalar) (q : Q) (tape : list ad_event) :
  ConvectiveSplit s = Some (q, s', tape) ->
  Density_i s' = nth_error (V_i s) (nDim s + 2)
  /\ Density_j s' = nth_error (V_j s) (nDim s + 2)
  /\ nDim s' = nDim s /\ nVar s' = nVar s
  /\ Normal s' = Normal s /\ V_i s' = V_i s /\ V_j s' = V_j s
  /\ ScalarVar_i s' = ScalarVar_i s /\ ScalarVar_j s' = ScalarVar_j s
  /\ GridVel_i s' = GridVel_i s /\ GridVel_j s' = GridVel_j s
  /\ Flux s' = Flux s /\ Jacobian_i s' = Jacobian_i s /\ Jacobian_j s' = Jacobian_j s
  /\ implicit s' = implicit s /\ incompressible s' = incompressible s
  /\ dynamic_grid s' = dynamic_grid s.
Proof.
  rewrite ConvectiveSplit_run.
  destruct (inputs_in_bounds s) eqn:Hb; [|discriminate].
  intros E. injection E as <- <- <-.
  apply inputs_in_bounds_spec in Hb. destruct Hb as (HVi & HVj & _).
  cbn. unfold entry.
  rewrite (nth_error_nth' (V_i s) 0) by lia.
  rewrite (nth_error_nth' (V_j s) 0) by lia.
  repeat split.
Qed.

Lemma ConvectiveSplit_frame_witness :
  let s := moving_scenario 3 5 in
  let s' := split_state s (face_speed s) in
  ConvectiveSplit s = Some (face_speed s, s', [])
  /\ Density_i s' = nth_error (V_i s) (nDim s + 2)
  /\ Flux s' = Flux s.
Proof.
  intros s s'.
  assert (ConvectiveSplit s = Some (face_speed s, s', [])) as E
    by (apply ConvectiveSplit_in_bounds; reflexivity).
  destruct (ConvectiveSplit_frame s s' (face_speed s) [] E)
    as (Hd & _ & _ & _ & _ & _ & _ & _ & _ & _ & _ & HF & _).
  split; [exact E|]. split; [exact Hd | exact HF].
Defined.

(** X3: the split step keeps nothing from one call to the next.  What it
    returns and stores (q, a0, a1 and the two densities) is decided by
    nDim, dynamic_grid, the normal, the primitive states and the grid
    velocities alone: on two objects that agree on these, whatever a0, a1,
    densities, scalars and buffers an earlier call left in them, it returns
    the same speed and leaves the same coefficients and densities. *)
Theorem ConvectiveSplit_depends_on_inputs_only (s t : CUpwScalar) :
  nDim t = nDim s ->
  dynamic_grid t = dynamic_grid s ->
  Normal t = Normal s ->
  V_i t = V_i s -> V_j t = V_j s ->
  GridVel_i t = GridVel_i s -> GridVel_j t = GridVel_j s ->
  inputs_in_bounds s = true ->
  exists q s' t',
    ConvectiveSplit s = Some (q, s', [])
    /\ ConvectiveSplit t = Some (q, t', [])
    /\ a0 t' = a0 s' /\ a1 t' = a1 s'
    /\ Density_i t' = Density_i s' /\ Density_j t' = Density_j s'.
Proof.
  intros Hn Hd HN HVi HVj HGi HGj Hb.
  assert (inputs_in_bounds t = true) as Hb'.
  { revert Hb. unfold inputs_in_bounds. rewrite Hn, Hd, HN, HVi, HVj, HGi, HGj. trivial. }
  assert (face_speed t = face_speed s) as Hq.
  { unfold face_speed, relative_velocity_i, relative_velocity_j.
    rewrite Hn, Hd, HN, HVi, HVj, HGi, HGj. reflexivity. }
  exists (face_speed s), (split_state s (face_speed s)), (split_state t (face_speed s)).
  split; [apply ConvectiveSplit_in_bounds; exact Hb|].
  split; [rewrite <- Hq; apply ConvectiveSplit_in_bounds; exact Hb'|].
  cbn [split_state a0 a1 Density_i Density_j set_a0 set_a1 set_Density_i set_Density_j].
  rewrite Hn, HVi, HVj. repeat split.
Qed.

Lemma ConvectiveSplit_depends_on_inputs_only_witness :
  exists q s' t',
    ConvectiveSplit (moving_scenario 3 5) = Some (q, s', [])
    /\ ConvectiveSplit (set_a0 5 (set_Density_i 9 (moving_scenario 7 11)))
       = Some (q, t', [])
    /\ a0 t' = a0 s' /\ a1 t' = a1 s'
    /\ Density_i t' = Density_i s' /\ Density_j t' = Density_j s'.
Proof.
  apply (ConvectiveSplit_depends_on_inputs_only
           (moving_scenario 3 5)
           (set_a0 5 (set_Density_i 9 (moving_scenario 7 11)))); reflexivity.
Defined.

(** ** The speed as a function of the edge *)

Lemma Qsum_ext_eq (f g : nat -> Q) (n : nat) :
  (forall d, (d < n)%nat -> f d == g d) -> Qsum f n == Qsum g n.
Proof.
  induction n as [|n IH]; intros H; simpl; [reflexivity|].
  rewrite IH by (intros; apply H; lia).
  rewrite (H n) by lia. reflexivity.
Qed.

Lemma Qsum_scale (c : Q) (f : nat -> Q) (n : nat) :
  Qsum (fun d => c * f d) n == c * Qsum f n.
Proof.
  induction n as [|n IH]; simpl; [ring|]. rewrite IH. ring.
Qed.

Lemma entry_map_scale (c : Q) (l : list Q) (d : nat) :
  entry (map (Qmult c) l) d == c * entry l d.
Proof.
  unfold entry. revert d. induction l as [|x l IH]; intros [|d]; simpl.
  - ring.
  - ring.
  - reflexivity.
  - apply IH.
Qed.

Lemma entry_map_opp (l : list Q) (d : nat) :
  entry (map Qopp l) d == - entry l d.
Proof.
  unfold entry. revert d. induction l as [|x l IH]; intros [|d]; simpl.
  - ring.
  - ring.
  - reflexivity.
  - apply IH.
Qed.

Lemma split_respects_eq (q q' : Q) :
  q == q' ->
  (1 # 2) * (q + Qabs q) == (1 # 2) * (q' + Qabs q')
  /\ (1 # 2) * (q - Qabs q) == (1 # 2) * (q' - Qabs q').
Proof. intros E. rewrite E. split; reflexivity. Qed.

Lemma face_speed_reverse_edge (s : CUpwScalar) :
  face_speed (reverse_edge s) == - face_speed s.
Proof.
  unfold face_speed, relative_velocity_i, relative_velocity_j.
  cbn [reverse_edge nDim Normal V_i V_j GridVel_i GridVel_j dynamic_grid].
  setoid_replace (- Qsum (fun d : nat =>
      (1 # 2) *
      ((if dynamic_grid s
        then entry (V_i s) (d + 1) - entry (GridVel_i s) d
        else entry (V_i s) (d + 1)) +
       (if dynamic_grid s
        then entry (V_j s) (d + 1) - entry (GridVel_j s) d
        else entry (V_j s) (d + 1))) * entry (Normal s) d) (nDim s))
    with ((-(1)) * Qsum (fun d : nat =>
      (1 # 2) *
      ((if dynamic_grid s
        then entry (V_i s) (d + 1) - entry (GridVel_i s) d
        else entry (V_i s) (d + 1)) +
       (if dynamic_grid s
        then entry (V_j s) (d + 1) - entry (GridVel_j s) d
        else entry (V_j s) (d + 1))) * entry (Normal s) d) (nDim s)) by ring.
  rewrite <- Qsum_scale. apply Qsum_ext_eq. intros d _.
  rewrite entry_map_opp. ring.
Qed.

Lemma face_speed_scale_Normal (c : Q) (s : CUpwScalar) :
  face_speed (scale_Normal c s) == c * face_speed s.
Proof.
  unfold face_speed, relative_velocity_i, relative_velocity_j.
  cbn [scale_Normal nDim Normal V_i V_j GridVel_i GridVel_j dynamic_grid].
  rewrite <- Qsum_scale. apply Qsum_ext_eq. intros d _.
  rewrite entry_map_scale. ring.
Qed.

(** X4: seen from the other control volume (sides exchanged, normal
    reversed) the speed changes sign and the two coefficients trade places:
    q' = -q, a0' = -a1, a1' = -a0. *)
Theorem ConvectiveSplit_reverse_edge (s : CUpwScalar) :
  inputs_in_bounds s = true ->
  exists q s1 q' s2,
    ConvectiveSplit s = Some (q, s1, [])
    /\ ConvectiveSplit (reverse_edge s) = Some (q', s2, [])
    /\ q' == - q /\ a0 s2 == - a1 s1 /\ a1 s2 == - a0 s1.
Proof.
  intros Hb.
  assert (inputs_in_bounds (reverse_edge s) = true) as Hb'.
  { apply inputs_in_bounds_spec. apply inputs_in_bounds_spec in Hb.
    cbn [reverse_edge nDim Normal V_i V_j GridVel_i GridVel_j dynamic_grid].
    rewrite length_map. intuition. }
  exists (face_speed s), (split_state s (face_speed s)),
         (face_speed (reverse_edge s)),
         (split_state (reverse_edge s) (face_speed (reverse_edge s))).
  split; [apply ConvectiveSplit_in_bounds; exact Hb|].
  split; [apply ConvectiveSplit_in_bounds; exact Hb'|].
  split; [apply face_speed_reverse_edge|].
  cbn [split_state a0 a1 set_a0 set_a1].
  rewrite face_speed_reverse_edge, Qabs_opp. split; ring.
Qed.

Lemma ConvectiveSplit_reverse_edge_witness :
  inputs_in_bounds (moving_scenario 3 5) = true
  /\ exists q s1 q' s2,
       ConvectiveSplit (moving_scenario 3 5) = Some (q, s1, [])
       /\ ConvectiveSplit (reverse_edge (moving_scenario 3 5)) = Some (q', s2, [])
       /\ q' == - q /\ a0 s2 == - a1 s1 /\ a1 s2 == - a0 s1.
Proof.
  split; [reflexivity|].
  apply (ConvectiveSplit_reverse_edge (moving_scenario 3 5)). reflexivity.
Defined.

(** X5: a face normal c times as long, c >= 0, gives c times the speed and
    c times each coefficient. *)
Theorem ConvectiveSplit_scale_Normal (c : Q) (s : CUpwScalar) :
  0 <= c ->
  inputs_in_bounds s = true ->
  exists q s1 q' s2,
    ConvectiveSplit s = Some (q, s1, [])
    /\ ConvectiveSplit (scale_Normal c s) = Some (q', s2, [])
    /\ q' == c * q /\ a0 s2 == c * a0 s1 /\ a1 s2 == c * a1 s1.
Proof.
  intros Hc Hb.
  assert (inputs_in_bounds (scale_Normal c s) = true) as Hb'.
  { revert Hb. unfold inputs_in_bounds.
    cbn [scale_Normal nDim Normal V_i V_j GridVel_i GridVel_j dynamic_grid].
    rewrite length_map. trivial. }
  exists (face_speed s), (split_state s (face_speed s)),
         (face_speed (scale_Normal c s)),
         (split_state (scale_Normal c s) (face_speed (scale_Normal c s))).
  split; [apply ConvectiveSplit_in_bounds; exact Hb|].
  split; [apply ConvectiveSplit_in_bounds; exact Hb'|].
  split; [apply face_speed_scale_Normal|].
  cbn [split_state a0 a1 set_a0 set_a1].
  rewrite face_speed_scale_Normal, Qabs_Qmult, (Qabs_pos c) by exact Hc.
  split; ring.
Qed.

Lemma ConvectiveSplit_scale_Normal_witness :
  0 <= 4 # 3
  /\ inputs_in_bounds (moving_scenario 3 5) = true
  /\ exists q s1 q' s2,
       ConvectiveSplit (moving_scenario 3 5) = Some (q, s1, [])
       /\ ConvectiveSplit (scale_Normal (4 # 3) (moving_scenario 3 5)) = Some (q', s2, [])
       /\ q' == (4 # 3) * q /\ a0 s2 == (4 # 3) * a0 s1 /\ a1 s2 == (4 # 3) * a1 s1.
Proof.
  split; [discriminate|]. split; [reflexivity|].
  apply (ConvectiveSplit_scale_Normal (4 # 3) (moving_scenario 3 5)).
  - discriminate.
  - reflexivity.
Defined.

(** X6: a moving mesh whose grid velocities are zero on both sides gives
    the speed and the coefficients of the static mesh with the same normal
    and primitive states. *)
Theorem ConvectiveSplit_zero_grid_velocity (s t : CUpwScalar) :
  dynamic_grid s = true ->
  dynamic_grid t = false ->
  nDim t = nDim s -> Normal t = Normal s -> V_i t = V_i s -> V_j t = V_j s ->
  inputs_in_bounds s = true ->
  (forall d, (d < nDim s)%nat -> entry (GridVel_i s) d == 0) ->
  (forall d, (d < nDim s)%nat -> entry (GridVel_j s) d == 0) ->
  exists q s1 q' t1,
    ConvectiveSplit s = Some (q, s1, [])
    /\ ConvectiveSplit t = Some (q', t1, [])
    /\ q == q' /\ a0 s1 == a0 t1 /\ a1 s1 == a1 t1.
Proof.
  intros Hs Ht Hn HN HVi HVj Hb Hgi Hgj.
  assert (inputs_in_bounds t = true) as Hb'.
  { apply inputs_in_bounds_spec. apply inputs_in_bounds_spec in Hb.
    rewrite Hn, HN, HVi, HVj, Ht. intuition congruence. }
  assert (face_speed s == face_speed t) as Hq.
  { unfold face_speed, relative_velocity_i, relative_velocity_j.
    rewrite Hs, Ht, Hn, HN, HVi, HVj.
    apply Qsum_ext_eq. intros d Hd.
    rewrite (Hgi d Hd), (Hgj d Hd). ring. }
  exists (face_speed s), (split_state s (face_speed s)),
         (face_speed t), (split_state t (face_speed t)).
  split; [apply ConvectiveSplit_in_bounds; exact Hb|].
  split; [apply ConvectiveSplit_in_bounds; exact Hb'|].
  split; [exact Hq|].
  cbn [split_state a0 a1 set_a0 set_a1].
  apply split_respects_eq; exact Hq.
Qed.

Lemma ConvectiveSplit_zero_grid_velocity_witness :
  exists q s1 q' t1,
    ConvectiveSplit (SetGridVel [0; 0] [0; 0] (scenario moving_config 3 5))
    = Some (q, s1, [])
    /\ ConvectiveSplit (static_scenario 3 5) = Some (q', t1, [])
    /\ q == q' /\ a0 s1 == a0 t1 /\ a1 s1 == a1 t1.
Proof.
  apply (ConvectiveSplit_zero_grid_velocity
           (SetGridVel [0; 0] [0; 0] (scenario moving_config 3 5))
           (static_scenario 3 5)); try reflexivity.
  - intros d Hd. simpl in Hd. destruct d as [|[|d]]; [reflexivity|reflexivity|lia].
  - intros d Hd. simpl in Hd. destruct d as [|[|d]]; [reflexivity|reflexivity|lia].
Defined.

(** ** What the method leaves to the model *)

Lemma bind_returns {A B} (m : M A) (k : A -> M B) (s s2 : CUpwScalar)
    (y : B) (l : list ad_event) :
  bind m k s = Some (y, s2, l) ->
  exists x s1 l1 l2,
    m s = Some (x, s1, l1) /\ k x s1 = Some (y, s2, l2) /\ l = l1 ++ l2.
Proof.
  unfold bind. destruct (m s) as [[[x s1] l1]|] eqn:Em; [|discriminate].
  destruct (k x s1) as [[[y' s2'] l2]|] eqn:Ek; [|discriminate].
  intros E. injection E as <- <- <-.
  exists x, s1, l1, l2. repeat split. exact Ek.
Qed.

Lemma read_returns (field : CUpwScalar -> list Q) (k : nat) (s s' : CUpwScalar)
    (x : Q) (l : list ad_event) :
  read field k s = Some (x, s', l) -> s' = s.
Proof.
  unfold read. rewrite bind_gets. unfold load, lift.
  destruct (nth_error (field s) k); [|discriminate].
  intros E. injection E as _ <- _. reflexivity.
Qed.

Lemma FluxOnly_keeps_Jacobians (config : CConfig) (s s' : CUpwScalar)
    (l : list ad_event) :
  FluxOnly_FinishResidualCalc config s = Some (tt, s', l) ->
  Jacobian_i s' = Jacobian_i s /\ Jacobian_j s' = Jacobian_j s.
Proof.
  unfold FluxOnly_FinishResidualCalc. rewrite !bind_gets.
  intros E.
  apply bind_returns in E. destruct E as (si & s1 & l1 & l2 & E1 & E & _).
  apply read_returns in E1. subst s1.
  apply bind_returns in E. destruct E as (sj & s1 & l1' & l2' & E1 & E & _).
  apply read_returns in E1. subst s1.
  rewrite bind_gets in E. unfold bind, lift, modify in E.
  destruct (store (Flux s) 0 _); [|discriminate].
  injection E as <- _. split; reflexivity.
Qed.

(** X7: the method itself writes no entry of the Jacobians.  With a model
    whose two methods leave them alone, the view a call returns shows the
    Jacobians exactly as they were before the call, stale or indeterminate
    as they may be. *)
Theorem ComputeResidual_keeps_unwritten_Jacobians `{ScalarModel} (config : CConfig)
    (s s3 : CUpwScalar) (r : ResidualType) (tape : list ad_event) :
  (forall u u' l, ExtraADPreaccIn u = Some (tt, u', l) ->
                  Jacobian_i u' = Jacobian_i u /\ Jacobian_j u' = Jacobian_j u) ->
  (forall u u' l, FinishResidualCalc config u = Some (tt, u', l) ->
                  Jacobian_i u' = Jacobian_i u /\ Jacobian_j u' = Jacobian_j u) ->
  ComputeResidual config s = Some (r, s3, tape) ->
  jacobian_i r = Jacobian_i s /\ jacobian_j r = Jacobian_j s.
Proof.
  intros HE HF HC.
  apply ComputeResidual_returns_iff in HC.
  destruct HC as (s1 & l1 & q & s2 & l3 & E1 & E2 & E3 & -> & _).
  apply HE in E1. apply HF in E3.
  rewrite ConvectiveSplit_run in E2.
  destruct (inputs_in_bounds s1); [|discriminate].
  injection E2 as _ <-.
  cbn [view jacobian_i jacobian_j].
  destruct E1 as [E1i E1j]. destruct E3 as [E3i E3j].
  rewrite E3i, E3j. cbn [split_state Jacobian_i Jacobian_j set_a0 set_a1
                         set_Density_i set_Density_j].
  split; assumption.
Qed.

Lemma ComputeResidual_keeps_unwritten_Jacobians_witness :
  exists r s3 tape,
    @ComputeResidual FluxOnly static_config (static_scenario 3 5) = Some (r, s3, tape)
    /\ jacobian_i r = Jacobian_i (static_scenario 3 5)
    /\ jacobian_j r = Jacobian_j (static_scenario 3 5).
Proof.
  do 3 eexists. split.
  - vm_compute. reflexivity.
  - eapply (@ComputeResidual_keeps_unwritten_Jacobians FluxOnly static_config
              (static_scenario 3 5)).
    + intros u u' l E. injection E as <- _. split; reflexivity.
    + intros u u' l. apply FluxOnly_keeps_Jacobians.
    + vm_compute. reflexivity.
Defined.

(** * Storage *)

(** ** Lists and the free store *)

Lemma nth_error_at {A} (l1 l2 : list A) (y : A) (i : nat) :
  i = length l1 -> nth_error (l1 ++ y :: l2) i = Some y.
Proof.
  intros ->. induction l1 as [|x l1 IH]; simpl; [reflexivity | exact IH].
Qed.

Lemma store_at {A} (l1 l2 : list A) (x y : A) (i : nat) :
  i = length l1 -> store (l1 ++ y :: l2) i x = Some (l1 ++ x :: l2).
Proof.
  intros ->. induction l1 as [|z l1 IH]; simpl; [reflexivity|].
  rewrite IH. reflexivity.
Qed.

Lemma nth_error_after {A} (h t : list A) (a i : nat) :
  a = (length h + i)%nat -> nth_error (h ++ t) a = nth_error t i.
Proof.
  intros ->. induction h as [|x h IH]; simpl; [reflexivity | exact IH].
Qed.

Lemma store_after {A} (h t : list A) (a i : nat) (x : A) :
  a = (length h + i)%nat ->
  store (h ++ t) a x = option_map (app h) (store t i x).
Proof.
  intros ->. induction h as [|z h IH]; simpl.
  - destruct (store t i x); reflexivity.
  - rewrite IH. destruct (store t i x); reflexivity.
Qed.

Lemma deref_after (h t : store_t) (a i : nat) :
  a = (length h + i)%nat ->
  deref (addr a) (h ++ t)
  = match nth_error t i with
    | Some (Some b) => Some (b, h ++ t)
    | _ => None
    end.
Proof. intros E. unfold deref. rewrite (nth_error_after h t a i E). reflexivity. Qed.

Lemma put_block_after (h t : store_t) (a i : nat) (b : option block) :
  a = (length h + i)%nat ->
  put_block (addr a) b (h ++ t)
  = match store t i b with
    | Some t' => Some (tt, h ++ t')
    | None => None
    end.
Proof.
  intros E. unfold put_block. rewrite (store_after h t a i b E).
  destruct (store t i b); reflexivity.
Qed.

Lemma new_block_after (h t : store_t) (b : block) :
  new_block b (h ++ t) = Some (addr (length h + length t), h ++ (t ++ [Some b])).
Proof. unfold new_block. rewrite length_app, app_assoc. reflexivity. Qed.

Lemma pairs_snoc {A} (x : A) (k : nat) : pairs x k ++ [x; x] = pairs x (S k).
Proof.
  unfold pairs. induction k as [|k IH]; [reflexivity|].
  change (repeat [x; x] (S k)) with ([x; x] :: repeat [x; x] k).
  cbn [concat app]. rewrite IH. reflexivity.
Qed.

Lemma length_pairs {A} (x : A) (k : nat) : length (pairs x k) = (2 * k)%nat.
Proof.
  unfold pairs. induction k as [|k IH]; [reflexivity|].
  cbn [repeat concat app length]. rewrite IH. lia.
Qed.

Lemma pairs_repeat {A} (x : A) (k : nat) : pairs x k = repeat x (2 * k).
Proof.
  unfold pairs. induction k as [|k IH]; [reflexivity|].
  replace (2 * S k)%nat with (S (S (2 * k))) by lia.
  cbn [repeat concat app]. rewrite IH. reflexivity.
Qed.

Lemma length_row_pointers (first k : nat) : length (row_pointers first k) = k.
Proof. unfold row_pointers. rewrite length_map, length_seq. reflexivity. Qed.

Lemma row_pointers_S (first k : nat) :
  row_pointers first (S k) = row_pointers first k ++ [Some (addr (first + 2 * k))].
Proof. unfold row_pointers. rewrite seq_S, map_app. reflexivity. Qed.

Lemma nth_error_row_pointers (first k j : nat) :
  (j < k)%nat -> nth_error (row_pointers first k) j = Some (Some (addr (first + 2 * j))).
Proof.
  intros Hj. unfold row_pointers.
  rewrite nth_error_map, nth_error_seq.
  destruct (Nat.ltb_spec j k); [reflexivity | lia].
Qed.

(** ** The constructor's loop *)

Lemma ctor_round (d : slot) (n : nat) (h : store_t) (k r : nat) :
  (ri <- new_su2double_array d n ;;
   store_pointer (addr (length h + 1)) k ri ;;
   rj <- new_su2double_array d n ;;
   store_pointer (addr (length h + 2)) k rj)%store
    (h ++ built d n (length h) k (S r))
  = Some (tt, h ++ built d n (length h) (S k) r).
Proof.
  unfold st_bind at 1. unfold new_su2double_array at 1.
  rewrite new_block_after.
  unfold st_bind at 1. unfold store_pointer at 1. unfold st_bind at 1.
  rewrite (deref_after h _ _ 1 eq_refl).
  cbn [built app nth_error repeat].
  rewrite (store_at (row_pointers (length h + 3) k) _ _ _ k)
    by (symmetry; apply length_row_pointers).
  rewrite (put_block_after h _ _ 1 _ eq_refl).
  cbn [store option_map].
  unfold st_bind at 1. unfold new_su2double_array at 1.
  rewrite new_block_after.
  unfold store_pointer at 1. unfold st_bind at 1.
  rewrite (deref_after h _ _ 2 eq_refl).
  cbn [app nth_error].
  rewrite (store_at (row_pointers (length h + 4) k) _ _ _ k)
    by (symmetry; apply length_row_pointers).
  rewrite (put_block_after h _ _ 2 _ eq_refl).
  cbn [store option_map app length].
  unfold built at 2. rewrite !row_pointers_S, <- !app_assoc.
  cbn [app]. rewrite pairs_snoc.
  unfold built. cbn [length]. rewrite length_app, !length_pairs. cbn [length].
  replace (length h + S (S (S (2 * k))))%nat with (length h + 3 + 2 * k)%nat by lia.
  replace (length h + S (S (S (2 * k + 1))))%nat with (length h + 4 + 2 * k)%nat by lia.
  reflexivity.
Qed.

Lemma ctor_rounds (d : slot) (n : nat) (h : store_t) :
  forall r k,
    st_for_from k r
      (fun iVar =>
         ri <- new_su2double_array d n ;;
         store_pointer (addr (length h + 1)) iVar ri ;;
         rj <- new_su2double_array d n ;;
         store_pointer (addr (length h + 2)) iVar rj)%store
      (h ++ built d n (length h) k r)
    = Some (tt, h ++ built d n (length h) (k + r) 0).
Proof.
  induction r as [|r IH]; intros k.
  - rewrite Nat.add_0_r. reflexivity.
  - cbn [st_for_from]. unfold st_bind at 1. rewrite ctor_round.
    rewrite IH. replace (S k + r)%nat with (k + S r)%nat by lia. reflexivity.
Qed.

(** The constructor body always returns: it leaves the blocks it finds and
    adds the flux, the two pointer blocks and the 2 nVar rows after them. *)
Lemma CUpwScalar_ctor_body_run (d : slot) (n : nat) (h : store_t) :
  CUpwScalar_ctor_body d n h
  = Some (mkMembers n (addr (length h)) (addr (length h + 1)) (addr (length h + 2)),
          h ++ built d n (length h) n 0).
Proof.
  unfold CUpwScalar_ctor_body.
  unfold st_bind at 1. unfold new_su2double_array at 1, new_block at 1.
  unfold st_bind at 1. unfold new_pointer_array at 1, new_block at 1.
  unfold st_bind at 1. unfold new_pointer_array at 1, new_block at 1.
  rewrite !length_app. cbn [length]. rewrite <- !app_assoc. cbn [app].
  unfold st_bind at 1. unfold st_for_upto.
  change ([Some (su2double_array (new_su2double d n));
           Some (pointer_array (repeat None n));
           Some (pointer_array (repeat None n))])
    with (built d n (length h) 0 n).
  replace (length h + 1 + 1)%nat with (length h + 2)%nat by lia.
  rewrite ctor_rounds. reflexivity.
Qed.

(** ** The destructor's loop *)

Lemma delete_array_live (h t t' : store_t) (b : block) (a i : nat) :
  a = (length h + i)%nat ->
  nth_error t i = Some (Some b) ->
  store t i None = Some t' ->
  delete_array (addr a) (h ++ t) = Some (tt, h ++ t').
Proof.
  intros E Hb Hs. unfold delete_array, st_bind.
  rewrite (deref_after h t a i E), Hb.
  rewrite (put_block_after h t a i None E), Hs. reflexivity.
Qed.

Lemma load_pointer_after (h t : store_t) (a i k : nat) (cells : list (option pointer))
    (q : pointer) :
  a = (length h + i)%nat ->
  nth_error t i = Some (Some (pointer_array cells)) ->
  nth_error cells k = Some (Some q) ->
  load_pointer (addr a) k (h ++ t) = Some (q, h ++ t).
Proof.
  intros E Ht Hc. unfold load_pointer, st_bind.
  rewrite (deref_after h t a i E), Ht, Hc. reflexivity.
Qed.

Lemma dtor_round (d : slot) (n : nat) (h : store_t) (k r : nat) :
  (ri <- load_pointer (addr (length h + 1)) k ;;
   delete_array ri ;;
   rj <- load_pointer (addr (length h + 2)) k ;;
   delete_array rj)%store
    (h ++ torn_down d n (length h) k (S r))
  = Some (tt, h ++ torn_down d n (length h) (S k) r).
Proof.
  unfold st_bind at 1.
  erewrite (load_pointer_after h _ _ 1 k _ _ eq_refl);
    [| reflexivity | apply nth_error_row_pointers; lia].
  unfold st_bind at 1.
  erewrite (delete_array_live h _ _ _ _ (S (S (S (2 * k))))); [| lia | |].
  2:{ unfold torn_down. cbn [nth_error].
      change (pairs (row_block d n) (S r))
        with (row_block d n :: row_block d n :: pairs (row_block d n) r).
      apply nth_error_at. symmetry. apply length_pairs. }
  2:{ unfold torn_down. cbn [store].
      change (pairs (row_block d n) (S r))
        with (row_block d n :: row_block d n :: pairs (row_block d n) r).
      rewrite (store_at (pairs None k)) by (symmetry; apply length_pairs).
      cbn [option_map]. reflexivity. }
  unfold st_bind at 1.
  erewrite (load_pointer_after h _ _ 2 k _ _ eq_refl);
    [| reflexivity | apply nth_error_row_pointers; lia].
  erewrite (delete_array_live h _ _ _ _ (S (S (S (2 * k + 1))))); [| lia | |].
  2:{ cbn [nth_error].
      change (pairs None k ++ None :: row_block d n :: pairs (row_block d n) r)
        with (pairs None k ++ [None] ++ row_block d n :: pairs (row_block d n) r).
      rewrite app_assoc.
      apply nth_error_at. rewrite length_app, length_pairs. reflexivity. }
  2:{ cbn [store].
      change (pairs None k ++ None :: row_block d n :: pairs (row_block d n) r)
        with (pairs None k ++ [None] ++ row_block d n :: pairs (row_block d n) r).
      rewrite app_assoc.
      rewrite (store_at (pairs None k ++ [None]))
        by (rewrite length_app, length_pairs; reflexivity).
      cbn [option_map]. reflexivity. }
  unfold torn_down. rewrite <- (pairs_snoc None k).
  replace (S k + r)%nat with (k + S r)%nat by lia.
  rewrite <- !app_assoc. reflexivity.
Qed.

Lemma dtor_rounds (d : slot) (n : nat) (h : store_t) :
  forall r k,
    st_for_from k r
      (fun iVar =>
         ri <- load_pointer (addr (length h + 1)) iVar ;;
         delete_array ri ;;
         rj <- load_pointer (addr (length h + 2)) iVar ;;
         delete_array rj)%store
      (h ++ torn_down d n (length h) k r)
    = Some (tt, h ++ torn_down d n (length h) (k + r) 0).
Proof.
  induction r as [|r IH]; intros k.
  - rewrite Nat.add_0_r. reflexivity.
  - cbn [st_for_from]. unfold st_bind at 1. rewrite dtor_round.
    rewrite IH. replace (S k + r)%nat with (k + S r)%nat by lia. reflexivity.
Qed.

(** The destructor, run on what the constructor body built, returns and
    leaves every block of the object released. *)
Lemma CUpwScalar_dtor_run (d : slot) (n : nat) (h : store_t) :
  CUpwScalar_dtor
    (mkMembers n (addr (length h)) (addr (length h + 1)) (addr (length h + 2)))
    (h ++ built d n (length h) n 0)
  = Some (tt, h ++ repeat None (3 + 2 * n)).
Proof.
  unfold CUpwScalar_dtor. cbn [m_Flux m_Jacobian_i m_Jacobian_j m_nVar].
  unfold st_bind at 1.
  erewrite (delete_array_live h _ (torn_down d n (length h) 0 n) _ _ 0);
    [| lia | reflexivity |].
  2:{ unfold built, torn_down. cbn [store repeat]. rewrite !app_nil_r. reflexivity. }
  unfold st_bind at 1. unfold st_for_upto. rewrite dtor_rounds.
  cbn [Nat.add]. unfold st_bind at 1.
  erewrite (delete_array_live h _ _ _ _ 1); [| lia | reflexivity | reflexivity].
  erewrite (delete_array_live h _ _ _ _ 2); [| lia | reflexivity | reflexivity].
  unfold pairs at 2. cbn [repeat concat]. rewrite app_nil_r, pairs_repeat.
  reflexivity.
Qed.

Lemma live_blocks_app (h t : store_t) :
  live_blocks (h ++ t) = (live_blocks h + live_blocks t)%nat.
Proof. unfold live_blocks. rewrite filter_app, length_app. reflexivity. Qed.

Lemma live_blocks_released (m : nat) : live_blocks (repeat None m) = 0%nat.
Proof. induction m as [|m IH]; [reflexivity | exact IH]. Qed.

Lemma live_blocks_rows (b : block) (m : nat) : live_blocks (repeat (Some b) m) = m.
Proof.
  induction m as [|m IH]; [reflexivity|].
  unfold live_blocks in *. cbn [repeat filter length]. rewrite IH. reflexivity.
Qed.

Lemma fetch_rows_all (H : store_t) (row : list slot) (f : nat -> pointer) (js : list nat) :
  (forall j, In j js -> fetch_vector H (f j) = Some row) ->
  fetch_rows H (map (fun j => Some (f j)) js) = Some (map (fun _ => row) js).
Proof.
  induction js as [|j js IH]; intros Hall; [reflexivity|].
  cbn [map fetch_rows]. rewrite (Hall j (or_introl eq_refl)).
  rewrite IH by (intros; apply Hall; right; assumption). reflexivity.
Qed.

Lemma fetch_row_built (d : slot) (n : nat) (h : store_t) (a i : nat) :
  a = (length h + S (S (S i)))%nat -> (i < 2 * n)%nat ->
  fetch_vector (h ++ built d n (length h) n 0) (addr a) = Some (new_su2double d n).
Proof.
  intros E Hi. unfold fetch_vector. rewrite (deref_after h _ a _ E).
  unfold built. cbn [nth_error]. rewrite pairs_repeat.
  unfold row_block. rewrite nth_error_repeat by exact Hi. reflexivity.
Qed.

Lemma fetch_matrix_built (d : slot) (n : nat) (h : store_t) (i : nat) :
  (i = 1 \/ i = 2)%nat ->
  fetch_matrix (h ++ built d n (length h) n 0) (addr (length h + i))
  = Some (map (fun _ => new_su2double d n) (seq 0 n)).
Proof.
  intros Hi. unfold fetch_matrix. rewrite (deref_after h _ _ i eq_refl).
  destruct Hi as [-> | ->].
  - change (nth_error (built d n (length h) n 0) 1)
      with (Some (Some (pointer_array (row_pointers (length h + 3) n ++ [])))).
    rewrite app_nil_r. unfold row_pointers.
    apply (fetch_rows_all _ (new_su2double d n) (fun j => addr (length h + 3 + 2 * j))).
    intros j Hj. apply in_seq in Hj.
    apply (fetch_row_built d n h _ (2 * j)); lia.
  - change (nth_error (built d n (length h) n 0) 2)
      with (Some (Some (pointer_array (row_pointers (length h + 4) n ++ [])))).
    rewrite app_nil_r. unfold row_pointers.
    apply (fetch_rows_all _ (new_su2double d n) (fun j => addr (length h + 4 + 2 * j))).
    intros j Hj. apply in_seq in Hj.
    apply (fetch_row_built d n h _ (2 * j + 1)); lia.
Qed.

Lemma fetch_view_built (d : slot) (n : nat) (h : store_t) :
  fetch_view (h ++ built d n (length h) n 0)
    (mkMembers n (addr (length h)) (addr (length h + 1)) (addr (length h + 2)))
  = Some (mkResidual (new_su2double d n)
            (map (fun _ => new_su2double d n) (seq 0 n))
            (map (fun _ => new_su2double d n) (seq 0 n))).
Proof.
  unfold fetch_view. cbn [m_Flux m_Jacobian_i m_Jacobian_j].
  assert (fetch_vector (h ++ built d n (length h) n 0) (addr (length h))
          = Some (new_su2double d n)) as ->.
  { unfold fetch_vector. rewrite (deref_after h _ _ 0) by lia. reflexivity. }
  rewrite !fetch_matrix_built by auto. reflexivity.
Qed.

(** ** Constructor and destructor together *)

(** X8: on any free store the constructor body returns; it leaves the
    blocks it finds, adds 3 + 2 nVar live blocks, and what its three
    pointers designate are the flux of nVar entries and the two matrices of
    nVar rows of nVar entries that [CUpwScalar_ctor] describes. *)
Theorem constructor_builds_the_buffers (default_init : slot) (ndim nvar : nat)
    (config : CConfig) (h : store_t) :
  exists o h',
    CUpwScalar_ctor_body default_init nvar h = Some (o, h')
    /\ m_nVar o = nvar
    /\ firstn (length h) h' = h
    /\ length h' = (length h + (3 + 2 * nvar))%nat
    /\ live_blocks h' = (live_blocks h + (3 + 2 * nvar))%nat
    /\ fetch_view h' o = Some (view (CUpwScalar_ctor default_init ndim nvar config)).
Proof.
  do 2 eexists. split; [apply CUpwScalar_ctor_body_run|].
  split; [reflexivity|].
  split; [rewrite firstn_app, Nat.sub_diag, firstn_all; cbn [firstn]; apply app_nil_r|].
  split.
  { rewrite length_app. unfold built. cbn [length]. rewrite length_pairs. lia. }
  split.
  { rewrite live_blocks_app. f_equal.
    unfold built, row_block. rewrite pairs_repeat.
    change (live_blocks (?a :: ?b :: ?c :: ?l)) with (S (S (S (live_blocks l)))).
    rewrite live_blocks_rows. reflexivity. }
  rewrite fetch_view_built. reflexivity.
Qed.

(** X9: the destructor, run on the object the constructor body built,
    returns and releases exactly the 3 + 2 nVar blocks the constructor
    added: the blocks that were there before are as they were, and as many
    blocks are live as before construction. *)
Theorem destructor_releases_the_buffers (default_init : slot) (nvar : nat) (h : store_t) :
  exists o h',
    CUpwScalar_ctor_body default_init nvar h = Some (o, h')
    /\ CUpwScalar_dtor o h' = Some (tt, h ++ repeat None (3 + 2 * nvar))
    /\ live_blocks (h ++ repeat None (3 + 2 * nvar)) = live_blocks h.
Proof.
  do 2 eexists. split; [apply CUpwScalar_ctor_body_run|].
  split; [apply CUpwScalar_dtor_run|].
  rewrite live_blocks_app, live_blocks_released. lia.
Qed.

(** X10: the destructor does not reset the pointers it releases: run a
    second time on the same three pointers (as for a member-wise copy of
    the object), it releases the flux block again and does not return. *)
Theorem destructor_twice_fails (default_init : slot) (nvar : nat) (h : store_t) :
  exists o h' h'',
    CUpwScalar_ctor_body default_init nvar h = Some (o, h')
    /\ CUpwScalar_dtor o h' = Some (tt, h'')
    /\ CUpwScalar_dtor o h'' = None.
Proof.
  do 3 eexists. split; [apply CUpwScalar_ctor_body_run|].
  split; [apply CUpwScalar_dtor_run|].
  unfold CUpwScalar_dtor. cbn [m_Flux].
  unfold st_bind at 1. unfold delete_array, st_bind.
  rewrite (deref_after h _ _ 0) by lia. reflexivity.
Qed.
